(** * Network.fetch: request cache with in-flight reuse and bounded retry

    A shallow embedding of [src/shared/store/Network.js].

    The JavaScript is asynchronous: [Network.fetch] runs to completion when
    it is called, and the callbacks it registers ([run]'s [then] handlers,
    the retry library's timer, the [then]/[catch] pair that deletes
    [item.promise]) run later, one at a time, on the same thread.  The
    embedding makes that explicit: a [state] holds the [history] map, the
    promise objects, the retry operations still running and the log of
    transport calls; [fetch] is the synchronous call; [respond], [wake] and
    [settle] are the callbacks.  [respond] runs both handlers of [run] and the
    retry decision as one step, [settle] runs the outer handler as another;
    calls and other callbacks may come between the two, not inside either.
    An item is an object shared by the map and by the closures of the
    operations launched for its url; it is never replaced in the map, so the
    closures' [item] is the map's value under [url].

    The transport ([fetch(url)] of isomorphic-fetch) is the environment: its
    replies are inputs of [respond].  The freshness comparison
    [(now / 1000) - (item.ts / 1000) <= maxAge] is computed as JavaScript
    computes it, in IEEE 754 binary64 (Rocq's primitive floats).  Not
    modelled: the decorators [@autobind] and [@serverWait] (taken as
    transparent) and MobX observability of [history]. *)

From Stdlib Require Import ZArith QArith String List Lia.
From Stdlib Require Import Floats Uint63.
From stdpp Require Import gmap strings list fin_maps.

Set Warnings "-register-all".

Local Open Scope string_scope.
Local Open Scope list_scope.

(** ** Values *)

(** What [res.json()] can resolve with. *)
Inductive json :=
| JNull
| JBool (b : bool)
| JNum (q : Q)
| JStr (s : string)
| JArr (xs : list json)
| JObj (fields : list (string * json)).

(** JavaScript's ToBoolean on such a value, as [if (item.data)] applies it. *)
Definition truthy (v : json) : bool :=
  match v with
  | JNull => false
  | JBool b => b
  | JNum q => negb (Qnum q =? 0)%Z
  | JStr s => negb (String.eqb s "")
  | JArr _ => true
  | JObj _ => true
  end.

(** What a promise of this module can reject with. *)
Inductive error :=
| AbortError (message : string)   (* pRetry.AbortError *)
| FetchError (message : string)   (* fetch(url) rejected: no response *)
| ParseError (message : string).  (* res.json() rejected *)

Definition is_abort (e : error) : bool :=
  match e with AbortError _ => true | _ => false end.

(** ** The transport, as [run] sees it *)

Inductive body :=
| Parsed (v : json)              (* res.json() resolves with v *)
| Malformed (message : string).  (* res.json() rejects *)

Record response := Response { status : Z; res_json : body }.

Inductive reply :=
| Resolves (res : response)      (* fetch(url) resolves with res *)
| Rejects (message : string).    (* fetch(url) rejects *)

(** ** The history map *)

Definition pid := nat.

(** A history item: a plain object whose properties [data], [ts] and
    [promise] may each be absent. *)
Record item := Item {
  data : option json;
  ts : option Z;
  promise : option pid
}.

(** [{}] *)
Definition empty_item : item := Item None None None.

Definition set_promise (p : option pid) (it : item) : item :=
  Item (data it) (ts it) p.

(** [item.ts = new Date().getTime(); item.data = data] *)
Definition store (now : Z) (d : json) (it : item) : item :=
  Item (Some d) (Some now) (promise it).

(** ** Promises and retry operations *)

Inductive pstate :=
| Pending
| Fulfilled (v : json)
| Rejected (e : error).

Definition outcome := (json + error)%type.

Definition settled (r : outcome) : pstate :=
  match r with inl v => Fulfilled v | inr e => Rejected e end.

(** Where one [pRetry(run, { retries })] stands. *)
Inductive phase :=
| Attempting            (* run() was invoked; its transport call is outstanding *)
| Delayed               (* an attempt failed; the next one waits for the timer *)
| Done (r : outcome).   (* pRetry's promise is settled; the outer handler is queued *)

(** One launched fetch: the closure over [url] and [item] (the object stored
    under [url], which is never replaced), the retries left, and the phase.
    It is keyed in [tasks] by the promise [Network.fetch] returned for it. *)
Record task := Task {
  t_url : string;
  t_left : nat;
  t_phase : phase
}.

Record state := State {
  history : gmap string item;
  promises : list pstate;
  tasks : gmap pid task;
  calls : list string       (* the transport calls fetch(url) made so far *)
}.

Definition init : state := State ∅ [] ∅ [].

(** ** Options *)

(** [{ maxAge = Infinity, retries = 1, force = false }]; [maxAge = None] is
    [Infinity], [Some m] a finite number of seconds, a double. *)
Record options := Options {
  maxAge : option float;
  retries : nat;
  force : bool
}.

Definition defaults : options := Options None 1 false.

(** ** Network.fetch *)

(** [if (!history.has(url)) history.set(url, {})] *)
Definition touch (url : string) (h : gmap string item) : gmap string item :=
  match h !! url with
  | Some _ => h
  | None => <[url := empty_item]> h
  end.

(** [history.get(url)] once the entry exists. *)
Definition entry (url : string) (h : gmap string item) : item :=
  default empty_item (h !! url).

(** [!force && item.promise && item.promise.then] *)
Definition in_flight (o : options) (it : item) : option pid :=
  if force o then None else promise it.

(** The number [new Date().getTime()] returns, a double holding a whole
    number of milliseconds; the conversion is exact below 2^53, which covers
    every time value of JavaScript (at most 8.64e15 in magnitude). *)
Definition Z2float (z : Z) : float :=
  match z with
  | Z0 => 0%float
  | Zpos _ => of_uint63 (Uint63.of_Z z)
  | Zneg p => (- of_uint63 (Uint63.of_Z (Zpos p)))%float
  end.

(** [(now / 1000) - (item.ts / 1000) <= maxAge], in binary64 as the code
    evaluates it; an absent [ts] makes the left side NaN and the comparison
    false; against [Infinity] the comparison holds, the left side being a
    number. *)
Definition fresh (now : Z) (t : option Z) (m : option float) : bool :=
  match t with
  | None => false
  | Some t0 =>
    match m with
    | None => true
    | Some m => (Z2float now / 1000 - Z2float t0 / 1000 <=? m)%float
    end
  end.

(** The guard [if (item.data) { if (... <= maxAge) ... }]: the cached value
    when it is served. *)
Definition cache_hit (now : Z) (it : item) (m : option float) : option json :=
  match data it with
  | Some d => if truthy d && fresh now (ts it) m then Some d else None
  | None => None
  end.

(** The call itself.  [now] is what [new Date().getTime()] returns during it.
    The result is the promise returned and the state left behind.  The first
    invocation of [run] by pRetry, and so the first transport call, is counted
    with the call that launches it. *)
Definition fetch (now : Z) (url : string) (o : options) (s : state) : pid * state :=
  let h := touch url (history s) in
  let it := entry url h in
  match in_flight o it with
  | Some p => (p, State h (promises s) (tasks s) (calls s))
  | None =>
    let p := length (promises s) in
    match cache_hit now it (maxAge o) with
    | Some d =>
      (p, State h (promises s ++ [Fulfilled d]) (tasks s) (calls s))
    | None =>
      (p, State (<[url := set_promise (Some p) it]> h)
                (promises s ++ [Pending])
                (<[p := Task url (retries o) Attempting]> (tasks s))
                (calls s ++ [url]))
    end
  end.

(** ** run *)

(** The first handler of [run]: 404 throws the abort error, anything else is
    parsed. *)
Definition on_response (res : response) : outcome :=
  if (status res =? 404)%Z then inr (AbortError "404 Not found")
  else match res_json res with
       | Parsed v => inl v
       | Malformed m => inr (ParseError m)
       end.

(** One invocation of [run] from the transport's reply to the settlement of
    the promise [run] returned, with its effect on [item]. *)
Definition run (now : Z) (r : reply) (it : item) : outcome * item :=
  match r with
  | Rejects m => (inr (FetchError m), it)
  | Resolves res =>
    match on_response res with
    | inl d => (inl d, store now d it)
    | inr e => (inr e, it)
    end
  end.

(** Modelled from the spec: the retry capability [pRetry] (the p-retry
    package; its code is not in the repository).  A success settles the
    operation; the abort signal stops it at once; any other rejection is
    followed by a reattempt while retries are left, and by a rejection with
    that last error once they are used up.  [n] is the number of reattempts
    still allowed: [retries] counts retries, so one operation makes at most
    [retries + 1] attempts. *)
Definition pRetry (n : nat) (r : outcome) : nat * phase :=
  match r with
  | inl v => (n, Done (inl v))
  | inr e =>
    if is_abort e then (n, Done (inr e))
    else match n with
         | O => (O, Done (inr e))
         | S n' => (n', Delayed)
         end
  end.

(** ** The callbacks *)

(** The transport call of operation [p] completes with [r] at time [now]. *)
Definition respond (now : Z) (p : pid) (r : reply) (s : state) : option state :=
  match tasks s !! p with
  | Some (Task url n Attempting) =>
    let '(res, it) := run now r (entry url (history s)) in
    let '(n', ph) := pRetry n res in
    Some (State (alter (fun _ => it) url (history s))
                (promises s)
                (<[p := Task url n' ph]> (tasks s))
                (calls s))
  | _ => None
  end.

(** The retry timer of operation [p] fires: [run] is invoked again. *)
Definition wake (p : pid) (s : state) : option state :=
  match tasks s !! p with
  | Some (Task url n Delayed) =>
    Some (State (history s) (promises s)
                (<[p := Task url n Attempting]> (tasks s))
                (calls s ++ [url]))
  | _ => None
  end.

(** The [then]/[catch] handler chained on pRetry's promise runs:
    [delete item.promise], and the promise [Network.fetch] returned settles. *)
Definition settle (p : pid) (s : state) : option state :=
  match tasks s !! p with
  | Some (Task url _ (Done r)) =>
    Some (State (alter (set_promise None) url (history s))
                (<[p := settled r]> (promises s))
                (delete p (tasks s))
                (calls s))
  | _ => None
  end.

(** ** Runs *)

Inductive event :=
| Call (now : Z) (url : string) (o : options)
| Respond (now : Z) (p : pid) (r : reply)
| Wake (p : pid)
| Settle (p : pid).

Definition step (e : event) (s : state) : option state :=
  match e with
  | Call now url o => Some (fetch now url o s).2
  | Respond now p r => respond now p r s
  | Wake p => wake p s
  | Settle p => settle p s
  end.

Fixpoint exec (es : list event) (s : state) : option state :=
  match es with
  | [] => Some s
  | e :: es' =>
    match step e s with
    | Some s' => exec es' s'
    | None => None
    end
  end.

Definition reachable (s : state) : Prop := ∃ es, exec es init = Some s.

(** ** Well-formed states *)

(** What every state reached from [init] satisfies: a running operation's
    promise is pending and its item exists; a promise registered in an item
    belongs to a running operation for that url; [data] and [ts] are present
    together. *)
Record wf (s : state) : Prop := Wf {
  wf_task : ∀ p t, tasks s !! p = Some t →
            promises s !! p = Some Pending ∧ is_Some (history s !! t_url t);
  wf_slot : ∀ k it p, history s !! k = Some it → promise it = Some p →
            ∃ t, tasks s !! p = Some t ∧ t_url t = k;
  wf_stamp : ∀ k it, history s !! k = Some it →
             is_Some (data it) ↔ is_Some (ts it)
}.

(** ** Sequences of calls and of attempts *)

(** Calls for one url made one after the other, with nothing in between:
    the promises returned, in order, and the state left behind. *)
Fixpoint fetch_all (k : string) (cs : list (Z * options)) (s : state)
  : list pid * state :=
  match cs with
  | [] => ([], s)
  | c :: cs' =>
    let r := fetch c.1 k c.2 s in
    let rs := fetch_all k cs' r.2 in
    (r.1 :: rs.1, rs.2)
  end.

(** The error the promise returned by [run] rejects with on this reply, when
    it rejects. *)
Definition rejection (r : reply) : option error :=
  match r with
  | Rejects m => Some (FetchError m)
  | Resolves res =>
    match on_response res with
    | inl _ => None
    | inr e => Some e
    end
  end.

(** [run] rejects on this reply, and not with the abort error. *)
Definition retryable (r : reply) : bool :=
  match rejection r with
  | Some e => negb (is_abort e)
  | None => false
  end.

(** A response whose status is not 404 and whose body does not parse. *)
Definition unparsable (r : reply) : bool :=
  match r with
  | Resolves (Response st (Malformed _)) => negb (st =? 404)%Z
  | _ => false
  end.

(** An attempt that fails with a retryable reply at the given time, followed
    by the timer that starts the next attempt. *)
Definition failed_attempt (p : pid) (c : Z * reply) : list event :=
  [Respond c.1 p c.2; Wake p].

Definition failed_attempts (p : pid) (cs : list (Z * reply)) : list event :=
  flat_map (failed_attempt p) cs.

(** ** What writes an item *)

(** The cached part of an item. *)
Definition stamp (it : item) : option json * option Z := (data it, ts it).

(** The event hands an operation for [k] a response that [run] parses: the
    one step that writes [data] and [ts] of [k]'s item. *)
Definition writes (k : string) (e : event) (s : state) : bool :=
  match e with
  | Respond _ p (Resolves res) =>
    match tasks s !! p with
    | Some (Task url _ Attempting) =>
      match on_response res with
      | inl _ => bool_decide (url = k)
      | inr _ => false
      end
    | _ => false
    end
  | _ => false
  end.

(** No event of the run writes [k]'s item. *)
Fixpoint silent (k : string) (es : list event) (s : state) : bool :=
  match es with
  | [] => true
  | e :: es' =>
    negb (writes k e s) &&
    match step e s with
    | Some s' => silent k es' s'
    | None => true
    end
  end.

(** ** Events and urls *)

(** The url an event is about: the url called, or the url of the operation
    whose callback runs. *)
Definition event_url (e : event) (s : state) : option string :=
  match e with
  | Call _ url _ => Some url
  | Respond _ p _ => t_url <$> tasks s !! p
  | Wake p => t_url <$> tasks s !! p
  | Settle p => t_url <$> tasks s !! p
  end.

(** No call for [k] in the run sets [force]. *)
Definition unforced (k : string) (es : list event) : bool :=
  forallb (λ e, match e with
                | Call _ url o => negb (bool_decide (url = k) && force o)
                | _ => true
                end) es.

(** Every operation running for [k] is the one whose promise [k]'s item
    holds. *)
Definition single_flight (k : string) (s : state) : Prop :=
  ∀ p t, tasks s !! p = Some t → t_url t = k →
         promise (entry k (history s)) = Some p.

(** ** One operation up to its settlement *)

(** The transport calls made for [k] so far. *)
Definition invocations (k : string) (s : state) : nat :=
  length (filter (λ u, u = k) (calls s)).

(** The number of times the retry timer of operation [p] fires in the run:
    its reattempts. *)
Fixpoint reattempts (p : pid) (es : list event) : nat :=
  match es with
  | [] => 0
  | Wake q :: es' => (if decide (q = p) then 1 else 0) + reattempts p es'
  | _ :: es' => reattempts p es'
  end.

(** The handler of operation [p] does not run in the run. *)
Definition unsettled (p : pid) (es : list event) : bool :=
  forallb (λ e, match e with
                | Settle q => negb (bool_decide (q = p))
                | _ => true
                end) es.

(** Operation [p] is registered in [k]'s item, it is the only operation
    running for [k], and it has made [a] of the [S r] attempts that [r]
    retries allow. *)
Definition flight (k : string) (p : pid) (r a : nat) (s : state) : Prop :=
  promise (entry k (history s)) = Some p ∧
  (∀ q t, tasks s !! q = Some t → t_url t = k → q = p) ∧
  ∃ n ph, tasks s !! p = Some (Task k n ph) ∧
          a + n + (if ph is Delayed then 1 else 0) = S r.

(** ** Sample inputs *)

Definition ok (v : json) : reply := Resolves (Response 200 (Parsed v)).
Definition forced : options := Options None 1 true.
Definition within (m : float) : options := Options (Some m) 1 false.

(** The state in which [d] was fetched for ["k"] at time [t0] and nothing
    is running. *)
Definition cached (d : json) (t0 : Z) : state :=
  State {["k" := Item (Some d) (Some t0) None]} [Fulfilled d] ∅ ["k"].

(** * Properties *)

(** ** The history map under [touch] and [entry] *)

Lemma touch_lookup url (h : gmap string item) :
  touch url h !! url = Some (entry url h).
Proof.
  unfold touch, entry. destruct (h !! url) eqn:E; simpl.
  - by rewrite E.
  - by rewrite lookup_insert_eq.
Qed.

Lemma touch_lookup_ne url k (h : gmap string item) :
  url ≠ k → touch url h !! k = h !! k.
Proof.
  intros Hne. unfold touch. destruct (h !! url); [done|].
  by rewrite lookup_insert_ne.
Qed.

Lemma touch_present url (h : gmap string item) :
  is_Some (h !! url) → touch url h = h.
Proof. intros [it E]. unfold touch. by rewrite E. Qed.

Lemma entry_touch url k (h : gmap string item) :
  entry k (touch url h) = entry k h.
Proof.
  destruct (decide (url = k)) as [->|Hne].
  - unfold entry at 1. by rewrite touch_lookup.
  - unfold entry. by rewrite touch_lookup_ne.
Qed.

Lemma entry_lookup k (h : gmap string item) it :
  h !! k = Some it → entry k h = it.
Proof. intros E. unfold entry. by rewrite E. Qed.

Lemma alter_entry k (h : gmap string item) :
  alter (λ _, entry k h) k h = h.
Proof.
  apply map_eq. intros j. rewrite lookup_alter.
  case_decide as E; [|done]. subst j.
  unfold entry. by destruct (h !! k).
Qed.

Lemma alter_is_Some (f : item → item) k j (h : gmap string item) :
  is_Some (h !! j) → is_Some (alter f k h !! j).
Proof.
  rewrite lookup_alter. case_decide; [subst j|done]. intros [x ->]. by eexists.
Qed.

(** ** The three ways [fetch] returns *)

Lemma fetch_reuse now url o s p :
  in_flight o (entry url (history s)) = Some p →
  fetch now url o s
  = (p, State (touch url (history s)) (promises s) (tasks s) (calls s)).
Proof. intros E. unfold fetch. by rewrite entry_touch, E. Qed.

Lemma fetch_hit now url o s d :
  in_flight o (entry url (history s)) = None →
  cache_hit now (entry url (history s)) (maxAge o) = Some d →
  fetch now url o s
  = (length (promises s),
     State (touch url (history s)) (promises s ++ [Fulfilled d])
           (tasks s) (calls s)).
Proof. intros E1 E2. unfold fetch. by rewrite entry_touch, E1, E2. Qed.

Lemma fetch_launch now url o s :
  in_flight o (entry url (history s)) = None →
  cache_hit now (entry url (history s)) (maxAge o) = None →
  fetch now url o s
  = (length (promises s),
     State (<[url := set_promise (Some (length (promises s)))
                       (entry url (history s))]> (touch url (history s)))
           (promises s ++ [Pending])
           (<[length (promises s) := Task url (retries o) Attempting]> (tasks s))
           (calls s ++ [url])).
Proof. intros E1 E2. unfold fetch. by rewrite entry_touch, E1, E2. Qed.

(** A call either changes nothing in the log of transport calls or appends
    its own url. *)
Lemma fetch_calls now url o s :
  calls (fetch now url o s).2 = calls s ∨
  calls (fetch now url o s).2 = calls s ++ [url].
Proof.
  destruct (in_flight o (entry url (history s))) as [p|] eqn:E1.
  { rewrite (fetch_reuse _ _ _ _ _ E1). by left. }
  destruct (cache_hit now (entry url (history s)) (maxAge o)) as [d|] eqn:E2.
  - rewrite (fetch_hit _ _ _ _ _ E1 E2). by left.
  - rewrite (fetch_launch _ _ _ _ E1 E2). by right.
Qed.

(** ** Reachable states are well formed *)

Lemma touch_lookup_Some url k (h : gmap string item) it :
  touch url h !! k = Some it → h !! k = Some it ∨ it = empty_item.
Proof.
  unfold touch. destruct (h !! url) eqn:E; [by left|].
  rewrite lookup_insert. case_decide; [|by left]. intros [= <-]. by right.
Qed.

Lemma touch_is_Some url k (h : gmap string item) :
  is_Some (h !! k) → is_Some (touch url h !! k).
Proof.
  unfold touch. destruct (h !! url) eqn:E; [done|].
  intros HS. rewrite lookup_insert. by case_decide.
Qed.

Lemma task_fresh s p t :
  wf s → tasks s !! p = Some t → p < length (promises s).
Proof.
  intros W E. destruct (wf_task _ W _ _ E) as [HP _].
  by apply lookup_lt_Some in HP.
Qed.

Lemma wf_init : wf init.
Proof. split; intros *; simpl; by rewrite ?lookup_empty. Qed.

Lemma wf_touch url s :
  wf s → wf (State (touch url (history s)) (promises s) (tasks s) (calls s)).
Proof.
  intros [W1 W2 W3]. split; simpl.
  - intros p t E. destruct (W1 _ _ E) as [? ?].
    split; [done|]. by apply touch_is_Some.
  - intros k it p E Hp. apply touch_lookup_Some in E as [E| ->]; [eauto|done].
  - intros k it E. apply touch_lookup_Some in E as [E| ->]; [eauto|].
    simpl. split; intros [? ?]; done.
Qed.

Lemma wf_fetch now url o s : wf s → wf (fetch now url o s).2.
Proof.
  intros W.
  destruct (in_flight o (entry url (history s))) as [p|] eqn:E1.
  { rewrite (fetch_reuse _ _ _ _ _ E1). by apply wf_touch. }
  pose proof (wf_touch url _ W) as [W1 W2 W3]. simpl in *.
  destruct (cache_hit now (entry url (history s)) (maxAge o)) as [d|] eqn:E2.
  - rewrite (fetch_hit _ _ _ _ _ E1 E2). split; simpl; [|done..].
    intros p t E. destruct (W1 _ _ E) as [HP ?]. split; [|done].
    by apply lookup_app_l_Some.
  - rewrite (fetch_launch _ _ _ _ E1 E2). split; simpl.
    + intros p t. rewrite lookup_insert. case_decide as Hp.
      * intros [= <-]. subst p. simpl. split.
        -- by rewrite lookup_app_r, Nat.sub_diag by lia.
        -- rewrite lookup_insert_eq. eauto.
      * intros E. destruct (W1 _ _ E) as [HP ?]. split.
        -- by apply lookup_app_l_Some.
        -- rewrite lookup_insert. by case_decide.
    + intros k it p. rewrite lookup_insert. case_decide as Hk.
      * intros [= <-] [= <-]. subst k.
        rewrite lookup_insert_eq. eauto.
      * intros E Hp. destruct (W2 _ _ _ E Hp) as (t & Et & Hu).
        exists t. split; [|done]. rewrite lookup_insert_ne; [done|].
        intros <-. apply (task_fresh _ _ _ W) in Et. lia.
    + intros k it. rewrite lookup_insert. case_decide as Hk; [|by eauto].
      intros [= <-]. subst k. simpl. apply (W3 url).
      apply touch_lookup.
Qed.

(** [run] touches [data] and [ts] only, and sets both or neither. *)
Lemma run_promise now r it : promise (run now r it).2 = promise it.
Proof.
  destruct r as [res|m]; simpl; [|done]. by destruct (on_response res).
Qed.

Lemma run_stamp now r it :
  (is_Some (data it) ↔ is_Some (ts it)) →
  is_Some (data (run now r it).2) ↔ is_Some (ts (run now r it).2).
Proof.
  intros H. destruct r as [res|m]; simpl; [|done].
  destruct (on_response res); simpl; [|done]. split; eauto.
Qed.

(** The cases of [respond], [wake] and [settle], read off the operation. *)
Lemma respond_Some now p r s s' :
  respond now p r s = Some s' →
  ∃ k n, tasks s !! p = Some (Task k n Attempting) ∧
    s' = State (alter (λ _, (run now r (entry k (history s))).2) k (history s))
               (promises s)
               (<[p := Task k (pRetry n (run now r (entry k (history s))).1).1
                              (pRetry n (run now r (entry k (history s))).1).2]>
                  (tasks s))
               (calls s).
Proof.
  unfold respond. destruct (tasks s !! p) as [[k n []]|]; simpl; try done.
  destruct (run now r (entry k (history s))) as [res it] eqn:Er.
  destruct (pRetry n res) as [n' ph] eqn:En. intros [= <-].
  exists k, n. split; [done|]. rewrite Er. simpl. by rewrite En.
Qed.

Lemma wake_Some p s s' :
  wake p s = Some s' →
  ∃ k n, tasks s !! p = Some (Task k n Delayed) ∧
    s' = State (history s) (promises s)
               (<[p := Task k n Attempting]> (tasks s)) (calls s ++ [k]).
Proof.
  unfold wake. destruct (tasks s !! p) as [[k n []]|]; simpl; try done.
  intros [= <-]. eauto.
Qed.

Lemma settle_Some p s s' :
  settle p s = Some s' →
  ∃ k n r, tasks s !! p = Some (Task k n (Done r)) ∧
    s' = State (alter (set_promise None) k (history s))
               (<[p := settled r]> (promises s))
               (delete p (tasks s)) (calls s).
Proof.
  unfold settle. destruct (tasks s !! p) as [[k n []]|]; simpl; try done.
  intros [= <-]. eauto.
Qed.

Lemma wf_respond now p r s s' : wf s → respond now p r s = Some s' → wf s'.
Proof.
  intros W H. apply respond_Some in H as (k & n & Ep & ->).
  destruct W as [W1 W2 W3]. split; simpl.
  - intros q t. rewrite lookup_insert. case_decide as Hq.
    + intros [= <-]. subst q. simpl. destruct (W1 _ _ Ep) as [? ?].
      split; [done|]. by apply alter_is_Some.
    + intros E. destruct (W1 _ _ E) as [? ?]. split; [done|].
      by apply alter_is_Some.
  - intros j it q. rewrite lookup_alter. case_decide as Hj.
    + subst j. destruct (history s !! k) as [it0|] eqn:E0; [|done].
      simpl. intros [= <-]. rewrite (entry_lookup _ _ _ E0), run_promise.
      intros Hq. destruct (W2 _ _ _ E0 Hq) as (t & Et & Hu).
      rewrite lookup_insert. case_decide; [|eauto].
      subst q. rewrite Ep in Et. injection Et as <-. eauto.
    + intros E Hq. destruct (W2 _ _ _ E Hq) as (t & Et & Hu).
      rewrite lookup_insert. case_decide; [|eauto].
      subst q. rewrite Ep in Et. injection Et as <-. eauto.
  - intros j it. rewrite lookup_alter. case_decide as Hj; [|by eauto].
    subst j. destruct (history s !! k) as [it0|] eqn:E0; [|done].
    simpl. intros [= <-]. rewrite (entry_lookup _ _ _ E0).
    apply run_stamp. eauto.
Qed.

Lemma wf_wake p s s' : wf s → wake p s = Some s' → wf s'.
Proof.
  intros W H. apply wake_Some in H as (k & n & Ep & ->).
  destruct W as [W1 W2 W3]. split; simpl; [| |done].
  - intros q t. rewrite lookup_insert. case_decide as Hq; [|by eauto].
    intros [= <-]. subst q. apply (W1 _ _ Ep).
  - intros j it q E Hq. destruct (W2 _ _ _ E Hq) as (t & Et & Hu).
    rewrite lookup_insert. case_decide; [|eauto].
    subst q. rewrite Ep in Et. injection Et as <-. eauto.
Qed.

Lemma wf_settle p s s' : wf s → settle p s = Some s' → wf s'.
Proof.
  intros W H. apply settle_Some in H as (k & n & r & Ep & ->).
  destruct W as [W1 W2 W3]. split; simpl.
  - intros q t. rewrite lookup_delete. case_decide as Hq; [done|].
    intros E. destruct (W1 _ _ E) as [? ?]. split.
    + by rewrite list_lookup_insert_ne.
    + by apply alter_is_Some.
  - intros j it q. rewrite lookup_alter. case_decide as Hj.
    + subst j. destruct (history s !! k); simpl; [|done]. by intros [= <-].
    + intros E Hq. destruct (W2 _ _ _ E Hq) as (t & Et & Hu).
      exists t. split; [|done]. rewrite lookup_delete_ne; [done|].
      intros <-. rewrite Ep in Et. injection Et as <-. done.
  - intros j it. rewrite lookup_alter. case_decide as Hj; [|by eauto].
    subst j. destruct (history s !! k) as [it0|] eqn:E0; [|done].
    simpl. intros [= <-]. simpl. eauto.
Qed.

Lemma wf_step e s s' : wf s → step e s = Some s' → wf s'.
Proof.
  destruct e; simpl; intros W H.
  - injection H as <-. by apply wf_fetch.
  - by eapply wf_respond.
  - by eapply wf_wake.
  - by eapply wf_settle.
Qed.

Lemma wf_exec es : ∀ s s', wf s → exec es s = Some s' → wf s'.
Proof.
  induction es as [|e es IH]; simpl; intros s s' W H.
  - by injection H as <-.
  - destruct (step e s) as [s1|] eqn:E; [|done].
    eapply IH; [|done]. by eapply wf_step.
Qed.

Lemma reachable_wf s : reachable s → wf s.
Proof. intros [es H]. eapply wf_exec; [apply wf_init|done]. Qed.

Lemma exec_app es1 es2 s :
  exec (es1 ++ es2) s = exec es1 s ≫= exec es2.
Proof.
  revert s. induction es1 as [|e es1 IH]; simpl; intros s; [done|].
  destruct (step e s); simpl; [apply IH|done].
Qed.

Lemma reachable_exec es s s' : reachable s → exec es s = Some s' → reachable s'.
Proof.
  intros [es0 H0] H. exists (es0 ++ es). by rewrite exec_app, H0.
Qed.

Lemma cached_exec d t0 :
  exec [Call 0 "k" defaults; Respond t0 0 (ok d); Settle 0] init
  = Some (cached d t0).
Proof. vm_compute. reflexivity. Qed.

Lemma cached_reachable d t0 : reachable (cached d t0).
Proof. eexists. apply cached_exec. Qed.

(** ** The cache check *)

(** The falsy values [res.json()] can produce: null, false, 0 and the empty
    string. *)
Lemma truthy_false v :
  truthy v = false
  ↔ v = JNull ∨ v = JBool false ∨ (∃ q, v = JNum q ∧ (q == 0)%Q) ∨ v = JStr "".
Proof.
  split.
  - destruct v as [|[]|q|s| |]; simpl; try done; eauto.
    + intros H. apply negb_false_iff, Z.eqb_eq in H.
      right. right. left. exists q. split; [done|].
      unfold Qeq. simpl. lia.
    + intros H. apply negb_false_iff, String.eqb_eq in H. subst s. eauto.
  - intros [->|[->|[(q & -> & Hq)| ->]]]; simpl; try done.
    apply negb_false_iff, Z.eqb_eq. unfold Qeq in Hq. simpl in Hq. lia.
Qed.

Lemma fresh_spec now t0 m :
  fresh now (Some t0) (Some m)
  = (Z2float now / 1000 - Z2float t0 / 1000 <=? m)%float.
Proof. reflexivity. Qed.

Lemma cache_hit_Some now it m d :
  cache_hit now it m = Some d
  ↔ data it = Some d ∧ truthy d = true ∧ fresh now (ts it) m = true.
Proof.
  unfold cache_hit. destruct (data it) as [d'|].
  - destruct (truthy d') eqn:Hy, (fresh now (ts it) m) eqn:Hf; simpl;
      (split; [intros [= <-]; done | intros ([= <-] & ? & ?); congruence]).
  - split; [done | by intros [? _]].
Qed.

Lemma cache_hit_None now it m :
  cache_hit now it m = None
  ↔ ∀ d, data it = Some d → truthy d = false ∨ fresh now (ts it) m = false.
Proof.
  unfold cache_hit. destruct (data it) as [d'|]; [|done].
  destruct (truthy d') eqn:Hy, (fresh now (ts it) m) eqn:Hf; simpl;
    split; try done; try (intros _ ? [= <-]; by eauto).
  intros H. destruct (H d' eq_refl); congruence.
Qed.

(** C9: when the item's data is a falsy value (null, 0, the empty string,
    false) and no promise is registered, a call with [force] false never
    serves it: the guard [if (item.data)] fails for every [now] and every
    [maxAge], also [Infinity], and the call issues a transport call and
    registers a new pending promise. *)
Theorem falsy_data_never_served now k o s it d :
  history s !! k = Some it → data it = Some d → truthy d = false →
  force o = false → promise it = None →
  cache_hit now it (maxAge o) = None ∧
  fetch now k o s
  = (length (promises s),
     State (<[k := set_promise (Some (length (promises s))) it]> (history s))
           (promises s ++ [Pending])
           (<[length (promises s) := Task k (retries o) Attempting]> (tasks s))
           (calls s ++ [k])).
Proof.
  intros Hk Hd Hf Ho Hp.
  assert (cache_hit now it (maxAge o) = None) as Hmiss.
  { unfold cache_hit. by rewrite Hd, Hf. }
  split; [done|]. rewrite fetch_launch.
  - by rewrite touch_present, (entry_lookup _ _ _ Hk) by eauto.
  - unfold in_flight. by rewrite Ho, (entry_lookup _ _ _ Hk).
  - by rewrite (entry_lookup _ _ _ Hk).
Qed.

Lemma falsy_data_never_served_witness :
  fetch 1 "k" defaults (cached (JNum 0) 0)
  = (1, State {["k" := Item (Some (JNum 0)) (Some 0%Z) (Some 1)]}
              [Fulfilled (JNum 0); Pending]
              {[1 := Task "k" 1 Attempting]} ["k"; "k"]).
Proof.
  refine (eq_trans (proj2 (falsy_data_never_served 1 "k" defaults
            (cached (JNum 0) 0) (Item (Some (JNum 0)) (Some 0%Z) None) (JNum 0)
            _ _ _ _ _)) _); reflexivity.
Defined.

(** C4, as stated, fails in two ways.  On a falsy cached value: 0 was
    cached for ["k"] at time 0 and nothing is in flight; one second later,
    within a [maxAge] of 60 seconds, the call does not serve the 0 but makes
    a second transport call and returns a pending promise.  And on the
    arithmetic: ["v"] was cached at 1003 ms and the call comes at 2003 ms
    with a [maxAge] of 1 second; the times are exactly one second apart, but
    the code computes 2.003 - 1.003 in doubles, which is 1.0000000000000002,
    more than 1, and makes a transport call. *)
Example fresh_falsy_data_is_refetched :
  ((Z2float 1000 / 1000 - Z2float 0 / 1000 <=? 60)%float = true ∧
   fetch 1000 "k" (within 60) (cached (JNum 0) 0)
   = (1, State {["k" := Item (Some (JNum 0)) (Some 0%Z) (Some 1)]}
               [Fulfilled (JNum 0); Pending]
               {[1 := Task "k" 1 Attempting]} ["k"; "k"]))
  ∧
  ((2003 - 1003 = 1 * 1000)%Z ∧
   (Z2float 2003 / 1000 - Z2float 1003 / 1000 <=? 1)%float = false ∧
   fetch 2003 "k" (within 1) (cached (JStr "v") 1003)
   = (1, State {["k" := Item (Some (JStr "v")) (Some 1003%Z) (Some 1)]}
               [Fulfilled (JStr "v"); Pending]
               {[1 := Task "k" 1 Attempting]} ["k"; "k"])).
Proof. repeat split; reflexivity. Qed.

(** C4, amended: for an item holding truthy data [d] written at [t0], with no
    promise registered, a call with a finite [maxAge] [m] at time [now]
    returns a new promise already fulfilled with [d], leaving the history,
    the running operations and the transport log as they were, when the
    comparison [(now / 1000) - (t0 / 1000) <= m] holds as the code evaluates
    it, in double precision; when it does not hold the call makes a transport
    call. *)
Theorem truthy_data_served_while_fresh now k o s it d t0 m :
  history s !! k = Some it → data it = Some d → ts it = Some t0 →
  promise it = None → maxAge o = Some m → truthy d = true →
  ((Z2float now / 1000 - Z2float t0 / 1000 <=? m)%float = true →
   fetch now k o s
   = (length (promises s),
      State (history s) (promises s ++ [Fulfilled d]) (tasks s) (calls s)))
  ∧
  ((Z2float now / 1000 - Z2float t0 / 1000 <=? m)%float = false →
   fetch now k o s
   = (length (promises s),
      State (<[k := set_promise (Some (length (promises s))) it]> (history s))
            (promises s ++ [Pending])
            (<[length (promises s) := Task k (retries o) Attempting]> (tasks s))
            (calls s ++ [k]))).
Proof.
  intros Hk Hd Ht Hp Hm Hy.
  assert (in_flight o (entry k (history s)) = None) as Hfl.
  { unfold in_flight. rewrite (entry_lookup _ _ _ Hk), Hp. by destruct (force o). }
  assert (touch k (history s) = history s) as Htouch by (apply touch_present; eauto).
  split; intros Hage.
  - rewrite (fetch_hit _ _ _ _ d); [by rewrite Htouch|done|].
    rewrite (entry_lookup _ _ _ Hk), Hm. apply cache_hit_Some.
    rewrite Ht. by rewrite fresh_spec.
  - rewrite fetch_launch; [by rewrite Htouch, (entry_lookup _ _ _ Hk)|done|].
    rewrite (entry_lookup _ _ _ Hk), Hm. apply cache_hit_None.
    intros d' Hd'. right. rewrite Ht. by rewrite fresh_spec.
Qed.

Lemma truthy_data_served_while_fresh_witness :
  fetch 60000 "k" (within 60) (cached (JStr "v") 0)
  = (1, State {["k" := Item (Some (JStr "v")) (Some 0%Z) None]}
              [Fulfilled (JStr "v"); Fulfilled (JStr "v")] ∅ ["k"])
  ∧
  fetch 60001 "k" (within 60) (cached (JStr "v") 0)
  = (1, State {["k" := Item (Some (JStr "v")) (Some 0%Z) (Some 1)]}
              [Fulfilled (JStr "v"); Pending]
              {[1 := Task "k" 1 Attempting]} ["k"; "k"]).
Proof.
  split.
  - refine (eq_trans (proj1 (truthy_data_served_while_fresh 60000 "k"
              (within 60) (cached (JStr "v") 0)
              (Item (Some (JStr "v")) (Some 0%Z) None) (JStr "v") 0 60
              eq_refl eq_refl eq_refl eq_refl eq_refl eq_refl) _) eq_refl).
    reflexivity.
  - refine (eq_trans (proj2 (truthy_data_served_while_fresh 60001 "k"
              (within 60) (cached (JStr "v") 0)
              (Item (Some (JStr "v")) (Some 0%Z) None) (JStr "v") 0 60
              eq_refl eq_refl eq_refl eq_refl eq_refl eq_refl) _) eq_refl).
    reflexivity.
Defined.

(** C1, as stated, fails: ["v"] is cached for ["k"]; the call with
    [force: true] (and the default [maxAge]) passes the in-flight check but
    not the freshness check, so it returns a promise fulfilled with the cached
    ["v"] and the transport log still holds the first call only. *)
Example forced_call_is_served_from_cache :
  force forced = true ∧
  fetch 1000 "k" forced (cached (JStr "v") 0)
  = (1, State {["k" := Item (Some (JStr "v")) (Some 0%Z) None]}
              [Fulfilled (JStr "v"); Fulfilled (JStr "v")] ∅ ["k"]).
Proof. split; reflexivity. Qed.

(** C1, amended: a call with [force: true] bypasses the in-flight check, in
    every state and whatever promise is registered for the url, but not the
    freshness check: when the item holds truthy data no older than [maxAge]
    the call returns a promise fulfilled with it and makes no transport call;
    in every other case it makes a transport call and registers a new pending
    promise. *)
Theorem force_bypasses_in_flight_check_only now k o s :
  force o = true →
  in_flight o (entry k (history s)) = None ∧
  match cache_hit now (entry k (history s)) (maxAge o) with
  | Some d =>
    fetch now k o s
    = (length (promises s),
       State (touch k (history s)) (promises s ++ [Fulfilled d])
             (tasks s) (calls s))
  | None =>
    fetch now k o s
    = (length (promises s),
       State (<[k := set_promise (Some (length (promises s)))
                       (entry k (history s))]> (touch k (history s)))
             (promises s ++ [Pending])
             (<[length (promises s) := Task k (retries o) Attempting]> (tasks s))
             (calls s ++ [k]))
  end.
Proof.
  intros Ho.
  assert (in_flight o (entry k (history s)) = None) as Hfl.
  { unfold in_flight. by rewrite Ho. }
  split; [done|].
  destruct (cache_hit now (entry k (history s)) (maxAge o)) as [d|] eqn:E.
  - by apply fetch_hit.
  - by apply fetch_launch.
Qed.

(** A forced call while promise 0 is registered for ["k"]: a second
    transport call, and promise 1 replaces promise 0 in the item. *)
Lemma force_bypasses_in_flight_check_only_witness :
  exec [Call 0 "k" defaults] init
  = Some (State {["k" := Item None None (Some 0)]} [Pending]
                {[0 := Task "k" 1 Attempting]} ["k"])
  ∧
  fetch 1 "k" forced (State {["k" := Item None None (Some 0)]} [Pending]
                            {[0 := Task "k" 1 Attempting]} ["k"])
  = (1, State {["k" := Item None None (Some 1)]} [Pending; Pending]
              {[0 := Task "k" 1 Attempting; 1 := Task "k" 1 Attempting]}
              ["k"; "k"]).
Proof.
  split; [reflexivity|].
  refine (eq_trans (proj2 (force_bypasses_in_flight_check_only 1 "k" forced
            (State {["k" := Item None None (Some 0)]} [Pending]
                   {[0 := Task "k" 1 Attempting]} ["k"]) eq_refl)) _).
  reflexivity.
Defined.

(** ** Coalescing *)

Lemma fetch_all_cons k c cs s :
  fetch_all k (c :: cs) s
  = ((fetch c.1 k c.2 s).1 :: (fetch_all k cs (fetch c.1 k c.2 s).2).1,
     (fetch_all k cs (fetch c.1 k c.2 s).2).2).
Proof. reflexivity. Qed.

Lemma fetch_in_flight now k o s it p :
  history s !! k = Some it → promise it = Some p → force o = false →
  fetch now k o s = (p, s).
Proof.
  intros Hk Hp Ho. rewrite (fetch_reuse _ _ _ _ p).
  - rewrite touch_present by eauto. by destruct s.
  - unfold in_flight. by rewrite Ho, (entry_lookup _ _ _ Hk).
Qed.

Lemma fetch_all_in_flight k cs : ∀ s it p,
  history s !! k = Some it → promise it = Some p →
  Forall (λ c, force c.2 = false) cs →
  fetch_all k cs s = (replicate (length cs) p, s).
Proof.
  induction cs as [|c cs IH]; intros s it p Hk Hp Hf; [done|].
  apply Forall_cons in Hf as [Hc Hf].
  rewrite fetch_all_cons, (fetch_in_flight _ _ _ _ _ _ Hk Hp Hc).
  cbn [fst snd]. by rewrite (IH _ _ _ Hk Hp Hf).
Qed.

(** With [force] false and a promise [p] registered for [k], a call returns
    [p] and leaves the state, the transport log included, as it was; so do
    any number of such calls.  When [k] has no entry, N >= 1 calls with
    [force] false made one after the other all return the new pending
    promise of the single operation the first call launches, and by the time
    the last of them returns one transport call was made. *)
Lemma coalescing k cs s :
  Forall (λ c, force c.2 = false) cs →
  (∀ it p, history s !! k = Some it → promise it = Some p →
     fetch_all k cs s = (replicate (length cs) p, s))
  ∧
  (history s !! k = None → ∀ c cs', cs = c :: cs' →
     fetch_all k cs s
     = (replicate (length cs) (length (promises s)),
        State (<[k := Item None None (Some (length (promises s)))]> (history s))
              (promises s ++ [Pending])
              (<[length (promises s) := Task k (retries c.2) Attempting]> (tasks s))
              (calls s ++ [k]))).
Proof.
  intros Hf. split.
  - intros it p Hk Hp. by eapply fetch_all_in_flight.
  - intros Hk c cs' ->. apply Forall_cons in Hf as [Hc Hf].
    assert (entry k (history s) = empty_item) as He.
    { unfold entry. by rewrite Hk. }
    assert (touch k (history s) = <[k := empty_item]> (history s)) as Ht.
    { unfold touch. by rewrite Hk. }
    rewrite fetch_all_cons, fetch_launch, He, Ht, insert_insert_eq.
    + cbn [fst snd].
      rewrite (fetch_all_in_flight k cs' _
                 (set_promise (Some (length (promises s))) empty_item)
                 (length (promises s))); [done| |done|done].
      cbn [history]. by rewrite lookup_insert_eq.
    + rewrite He. unfold in_flight. by rewrite Hc.
    + by rewrite He.
Qed.


(** ** Settling *)

(** C8: when a launched fetch settles, with success or with failure, the
    handler deletes the promise registered in the item of its url, the
    promise the call returned is settled with the operation's outcome, and
    the operation is gone; in the state it leaves, every promise still
    registered in an item is pending. *)
Theorem settle_clears_in_flight p s s' :
  reachable s → settle p s = Some s' →
  ∃ k n r it,
    tasks s !! p = Some (Task k n (Done r)) ∧
    history s' !! k = Some it ∧ promise it = None ∧
    promises s' !! p = Some (settled r) ∧
    tasks s' !! p = None ∧
    ∀ j it' q, history s' !! j = Some it' → promise it' = Some q →
               promises s' !! q = Some Pending.
Proof.
  intros Hr H. pose proof (reachable_wf _ Hr) as W.
  pose proof (wf_settle _ _ _ W H) as W'.
  apply settle_Some in H as (k & n & r & Ep & ->).
  destruct (wf_task _ W _ _ Ep) as [HP [it Hit]]. simpl in Hit.
  exists k, n, r, (set_promise None it). simpl. repeat split.
  - done.
  - by rewrite lookup_alter_eq, Hit.
  - apply list_lookup_insert_eq. by apply lookup_lt_Some in HP.
  - by rewrite lookup_delete_eq.
  - intros j it' q Hj Hq.
    destruct (wf_slot _ W' _ _ _ Hj Hq) as (t & Et & _).
    by destruct (wf_task _ W' _ _ Et).
Qed.

(** Promise 0, launched for ["k"], was answered with a 404 and settles. *)
Lemma settle_clears_in_flight_witness :
  ∃ k n r it,
    ({[0 := Task "k" 1 (Done (inr (AbortError "404 Not found")))]}
       : gmap pid task) !! 0 = Some (Task k n (Done r)) ∧
    ({["k" := Item None None None]} : gmap string item) !! k = Some it ∧
    promise it = None ∧
    [Rejected (AbortError "404 Not found")] !! 0 = Some (settled r) ∧
    (∅ : gmap pid task) !! 0 = None ∧
    ∀ j it' q,
      ({["k" := Item None None None]} : gmap string item) !! j = Some it' →
      promise it' = Some q →
      [Rejected (AbortError "404 Not found")] !! q = Some Pending.
Proof.
  exact (settle_clears_in_flight 0
           (State {["k" := Item None None (Some 0)]} [Pending]
                  {[0 := Task "k" 1 (Done (inr (AbortError "404 Not found")))]}
                  ["k"])
           (State {["k" := Item None None None]}
                  [Rejected (AbortError "404 Not found")] ∅ ["k"])
           (ex_intro _ [Call 0 "k" defaults;
                        Respond 1 0 (Resolves (Response 404 (Malformed "")))]
                     eq_refl)
           eq_refl).
Defined.

(** ** Attempts *)

Lemma run_rejection now r it e :
  rejection r = Some e → run now r it = (inr e, it).
Proof.
  destruct r as [res|m]; simpl.
  - destruct (on_response res); [done|]. by intros [= <-].
  - by intros [= <-].
Qed.

Lemma on_response_parsed st v :
  st ≠ 404%Z → on_response (Response st (Parsed v)) = inl v.
Proof.
  intros Hst. unfold on_response. simpl.
  by destruct (Z.eqb_spec st 404).
Qed.

Lemma on_response_malformed st m :
  st ≠ 404%Z → on_response (Response st (Malformed m)) = inr (ParseError m).
Proof.
  intros Hst. unfold on_response. simpl.
  by destruct (Z.eqb_spec st 404).
Qed.

Lemma on_response_404 b :
  on_response (Response 404 b) = inr (AbortError "404 Not found").
Proof. reflexivity. Qed.

Lemma alter_store now v k (h : gmap string item) :
  alter (λ _, store now v (entry k h)) k h = alter (store now v) k h.
Proof.
  apply map_eq. intros j. rewrite !lookup_alter.
  case_decide as E; [|done]. subst j.
  unfold entry. by destruct (h !! k).
Qed.

(** [respond], case by case. *)
Lemma respond_parsed now p res v s k n :
  tasks s !! p = Some (Task k n Attempting) → on_response res = inl v →
  respond now p (Resolves res) s
  = Some (State (alter (store now v) k (history s)) (promises s)
                (<[p := Task k n (Done (inl v))]> (tasks s)) (calls s)).
Proof.
  intros Ep Hv. unfold respond, run. rewrite Ep, Hv. simpl.
  by rewrite alter_store.
Qed.

Lemma respond_rejected now p r e s k n :
  tasks s !! p = Some (Task k n Attempting) → rejection r = Some e →
  respond now p r s
  = Some (State (history s) (promises s)
                (<[p := Task k (pRetry n (inr e)).1 (pRetry n (inr e)).2]> (tasks s))
                (calls s)).
Proof.
  intros Ep He. unfold respond. rewrite Ep, (run_rejection _ _ _ _ He).
  destruct (pRetry n (inr e)) as [n' ph]. simpl. by rewrite alter_entry.
Qed.

Lemma respond_retry now p r s k n :
  tasks s !! p = Some (Task k (S n) Attempting) → retryable r = true →
  respond now p r s
  = Some (State (history s) (promises s)
                (<[p := Task k n Delayed]> (tasks s)) (calls s)).
Proof.
  intros Ep Hr. unfold retryable in Hr.
  destruct (rejection r) as [e|] eqn:He; [|done].
  rewrite (respond_rejected _ _ _ _ _ _ _ Ep He). unfold pRetry.
  by destruct (is_abort e).
Qed.

Lemma respond_exhausted now p r e s k :
  tasks s !! p = Some (Task k 0 Attempting) →
  rejection r = Some e →
  respond now p r s
  = Some (State (history s) (promises s)
                (<[p := Task k 0 (Done (inr e))]> (tasks s)) (calls s)).
Proof.
  intros Ep He. rewrite (respond_rejected _ _ _ _ _ _ _ Ep He).
  unfold pRetry. by destruct (is_abort e).
Qed.

Lemma respond_abort now p b s k n :
  tasks s !! p = Some (Task k n Attempting) →
  respond now p (Resolves (Response 404 b)) s
  = Some (State (history s) (promises s)
                (<[p := Task k n (Done (inr (AbortError "404 Not found")))]> (tasks s))
                (calls s)).
Proof.
  intros Ep. by rewrite (respond_rejected _ _ _ (AbortError "404 Not found") _ _ _ Ep).
Qed.

Lemma wake_delayed p s k n :
  tasks s !! p = Some (Task k n Delayed) →
  wake p s = Some (State (history s) (promises s)
                         (<[p := Task k n Attempting]> (tasks s))
                         (calls s ++ [k])).
Proof. intros Ep. unfold wake. by rewrite Ep. Qed.

Lemma settle_done p s k n r :
  tasks s !! p = Some (Task k n (Done r)) →
  settle p s = Some (State (alter (set_promise None) k (history s))
                           (<[p := settled r]> (promises s))
                           (delete p (tasks s)) (calls s)).
Proof. intros Ep. unfold settle. by rewrite Ep. Qed.

(** Retryable failures, as many as there are retries to spend: each is
    followed by a new transport call, and nothing else changes. *)
Lemma failed_attempts_exec p k cs : ∀ s n,
  tasks s !! p = Some (Task k (length cs + n) Attempting) →
  Forall (λ c, retryable c.2 = true) cs →
  exec (failed_attempts p cs) s
  = Some (State (history s) (promises s)
                (<[p := Task k n Attempting]> (tasks s))
                (calls s ++ replicate (length cs) k)).
Proof.
  induction cs as [|c cs IH]; intros s n Ep Hf.
  - simpl. rewrite insert_id, app_nil_r by done. by destruct s.
  - apply Forall_cons in Hf as [Hc Hf]. simpl in Ep.
    change (failed_attempts p (c :: cs))
      with (Respond c.1 p c.2 :: Wake p :: failed_attempts p cs).
    cbn [exec step].
    rewrite (respond_retry _ _ _ _ _ _ Ep Hc).
    erewrite wake_delayed by (cbn [tasks]; apply lookup_insert_eq).
    cbn [history promises tasks calls].
    rewrite (IH _ n); [|cbn [tasks]; by rewrite lookup_insert_eq|done].
    cbn [history promises tasks calls].
    by rewrite !insert_insert_eq, <- app_assoc.
Qed.

(** ** Retry, abort, success *)

(** C7: a call with [retries: 3] that reaches the transport, whose first two
    attempts fail with retryable replies and whose third is answered (at time
    [t3], with a status other than 404) by a body that parses to [v]: the run
    is defined, the promise the call returned is fulfilled with [v], the item
    holds [v] with timestamp [t3] and no promise, and three transport calls
    were made. *)
Theorem retry_then_succeed now k o s f1 f2 t1 t2 t3 st v :
  retries o = 3 →
  in_flight o (entry k (history s)) = None →
  cache_hit now (entry k (history s)) (maxAge o) = None →
  retryable f1 = true → retryable f2 = true → st ≠ 404%Z →
  ∃ s1 s',
    fetch now k o s = (length (promises s), s1) ∧
    exec (failed_attempts (length (promises s)) [(t1, f1); (t2, f2)]
          ++ [Respond t3 (length (promises s))
                      (Resolves (Response st (Parsed v)));
              Settle (length (promises s))]) s1 = Some s' ∧
    promises s' !! length (promises s) = Some (Fulfilled v) ∧
    history s' !! k = Some (Item (Some v) (Some t3) None) ∧
    tasks s' !! length (promises s) = None ∧
    calls s' = calls s ++ [k; k; k].
Proof.
  intros Hn Hfl Hmiss Hf1 Hf2 Hst.
  rewrite (fetch_launch _ _ _ _ Hfl Hmiss), Hn.
  set (p := length (promises s)).
  eexists _, _. split; [reflexivity|].
  rewrite exec_app.
  rewrite (failed_attempts_exec p k [(t1, f1); (t2, f2)] _ 1);
    [|by cbn [tasks]; rewrite lookup_insert_eq|by repeat constructor].
  cbn [mbind option_bind exec step history promises tasks calls length replicate].
  erewrite respond_parsed;
    [|by cbn [tasks]; rewrite lookup_insert_eq|by apply on_response_parsed].
  cbn [history promises tasks calls].
  erewrite settle_done by (cbn [tasks]; apply lookup_insert_eq).
  cbn [history promises tasks calls].
  split; [reflexivity|]. cbn [history promises tasks calls]. repeat split.
  - rewrite list_lookup_insert_eq; [done|]. rewrite length_app. simpl. lia.
  - by rewrite !lookup_alter_eq, lookup_insert_eq.
  - by rewrite lookup_delete_eq.
  - by rewrite <- !app_assoc.
Qed.

Lemma retry_then_succeed_witness :
  ∃ s',
    exec (Call 0 "k" (Options None 3 false)
          :: failed_attempts 0 [(1%Z, Rejects "offline");
                                (2%Z, Resolves (Response 200 (Malformed "<html>")))]
          ++ [Respond 3 0 (ok (JStr "v")); Settle 0]) init = Some s' ∧
    promises s' !! 0 = Some (Fulfilled (JStr "v")) ∧
    history s' !! "k" = Some (Item (Some (JStr "v")) (Some 3%Z) None) ∧
    calls s' = ["k"; "k"; "k"].
Proof.
  destruct (retry_then_succeed 0 "k" (Options None 3 false) init
              (Rejects "offline") (Resolves (Response 200 (Malformed "<html>")))
              1 2 3 200 (JStr "v") eq_refl eq_refl eq_refl eq_refl eq_refl)
    as (s1 & s' & H1 & H2 & H3 & H4 & _ & H5); [done|].
  exists s'. injection H1 as <-. repeat split; assumption.
Defined.

(** C5, as stated, fails on the message: the abort error raised for a 404
    carries ["404 Not found"], not ["Not found"]. *)
Example not_found_message :
  exec [Call 0 "k" (Options None 5 false);
        Respond 1 0 (Resolves (Response 404 (Malformed "")));
        Settle 0] init
  = Some (State {["k" := Item None None None]}
                [Rejected (AbortError "404 Not found")] ∅ ["k"])
  ∧ AbortError "404 Not found" ≠ AbortError "Not found".
Proof. split; [reflexivity|discriminate]. Qed.

(** C5, amended: when the transport answers a call that reached it with
    status 404, whatever the body and whatever [retries], the operation is
    done at once with the abort error of message ["404 Not found"]: no timer
    and no further reply can start another attempt, the handler then rejects
    the promise the call returned with that error, the transport was called
    exactly once, and the item holds the data and timestamp it held before
    the call, with no promise. *)
Theorem not_found_aborts now k o s t b :
  in_flight o (entry k (history s)) = None →
  cache_hit now (entry k (history s)) (maxAge o) = None →
  ∃ s1 s2 s3,
    fetch now k o s = (length (promises s), s1) ∧
    respond t (length (promises s)) (Resolves (Response 404 b)) s1 = Some s2 ∧
    history s2 = history s1 ∧
    wake (length (promises s)) s2 = None ∧
    (∀ t' r, respond t' (length (promises s)) r s2 = None) ∧
    settle (length (promises s)) s2 = Some s3 ∧
    promises s3 !! length (promises s)
    = Some (Rejected (AbortError "404 Not found")) ∧
    calls s3 = calls s ++ [k] ∧
    history s3 !! k = Some (set_promise None (entry k (history s))).
Proof.
  intros Hfl Hmiss.
  rewrite (fetch_launch _ _ _ _ Hfl Hmiss).
  set (p := length (promises s)).
  eexists _, _, _. split; [reflexivity|].
  erewrite respond_abort by (cbn [tasks]; apply lookup_insert_eq).
  split; [reflexivity|]. cbn [history promises tasks calls].
  split; [reflexivity|].
  split. { unfold wake. cbn [tasks]. by rewrite lookup_insert_eq. }
  split. { intros t' r. unfold respond. cbn [tasks]. by rewrite lookup_insert_eq. }
  erewrite settle_done by (cbn [tasks]; apply lookup_insert_eq).
  split; [reflexivity|]. cbn [history promises tasks calls]. repeat split.
  - rewrite list_lookup_insert_eq; [done|]. rewrite length_app. simpl. lia.
  - by rewrite lookup_alter_eq, lookup_insert_eq.
Qed.

Lemma not_found_aborts_witness :
  ∃ s1 s2 s3,
    fetch 0 "k" (Options None 5 false) init = (0, s1) ∧
    respond 1 0 (Resolves (Response 404 (Parsed JNull))) s1 = Some s2 ∧
    history s2 = history s1 ∧
    wake 0 s2 = None ∧
    (∀ t' r, respond t' 0 r s2 = None) ∧
    settle 0 s2 = Some s3 ∧
    promises s3 !! 0 = Some (Rejected (AbortError "404 Not found")) ∧
    calls s3 = ["k"] ∧
    history s3 !! "k" = Some (Item None None None).
Proof.
  exact (not_found_aborts 0 "k" (Options None 5 false) init 1 (Parsed JNull)
           eq_refl eq_refl).
Defined.

Lemma unparsable_retryable r : unparsable r = true → retryable r = true.
Proof.
  destruct r as [[st [v|m]]|m]; simpl; try done.
  intros Hst. apply negb_true_iff, Z.eqb_neq in Hst.
  unfold retryable, rejection. by rewrite on_response_malformed.
Qed.

(** C2, as stated, fails: a 500 whose body parses is not a failure for
    [run], which looks at the status only to single out 404.  The value is
    written to the item and the promise is fulfilled with it. *)
Example server_error_is_cached :
  exec [Call 0 "k" defaults;
        Respond 1 0 (Resolves (Response 500 (Parsed (JStr "Internal Server Error"))));
        Settle 0] init
  = Some (State {["k" := Item (Some (JStr "Internal Server Error")) (Some 1%Z) None]}
                [Fulfilled (JStr "Internal Server Error")] ∅ ["k"]).
Proof. reflexivity. Qed.

(** C2, amended: a response whose status is not 404 is parsed, whatever the
    status.  When the body does not parse this is a retryable failure: as
    long as retries are left each such response is followed by a new
    transport call and changes nothing else; the one that arrives when no
    retry is left makes the handler reject the promise the call returned
    with the parse error, and no data or timestamp is written.  When the body
    parses, the value is written to the item with the time of arrival and the
    promise is fulfilled with it. *)
Theorem unparsable_response_is_retried p k s n cs t st m :
  tasks s !! p = Some (Task k n Attempting) →
  promises s !! p = Some Pending →
  Forall (λ c, unparsable c.2 = true) cs →
  st ≠ 404%Z →
  ((length cs ≤ n)%nat →
   exec (failed_attempts p cs) s
   = Some (State (history s) (promises s)
                 (<[p := Task k (n - length cs) Attempting]> (tasks s))
                 (calls s ++ replicate (length cs) k)))
  ∧
  (length cs = n →
   ∃ s', exec (failed_attempts p cs
               ++ [Respond t p (Resolves (Response st (Malformed m)));
                   Settle p]) s = Some s' ∧
         promises s' !! p = Some (Rejected (ParseError m)) ∧
         history s' = alter (set_promise None) k (history s) ∧
         tasks s' !! p = None ∧
         calls s' = calls s ++ replicate n k)
  ∧
  (∀ v, ∃ s', exec [Respond t p (Resolves (Response st (Parsed v)));
                    Settle p] s = Some s' ∧
              promises s' !! p = Some (Fulfilled v) ∧
              history s'
              = alter (set_promise None) k (alter (store t v) k (history s)) ∧
              calls s' = calls s).
Proof.
  intros Ep HP Hcs Hst.
  assert (p < length (promises s)) as Hlt by by apply lookup_lt_Some in HP.
  assert (Forall (λ c : Z * reply, retryable c.2 = true) cs) as Hcs'.
  { eapply Forall_impl; [done|]. intros c. apply unparsable_retryable. }
  assert (∀ j, length cs + j = n →
    exec (failed_attempts p cs) s
    = Some (State (history s) (promises s)
                  (<[p := Task k j Attempting]> (tasks s))
                  (calls s ++ replicate (length cs) k))) as Hrounds.
  { intros j <-. by apply failed_attempts_exec. }
  split; [|split].
  - intros Hle. apply Hrounds. lia.
  - intros Hlen. rewrite exec_app, (Hrounds 0) by lia.
    cbn [mbind option_bind exec step].
    erewrite respond_exhausted;
      [|by cbn [tasks]; rewrite lookup_insert_eq
       |by cbn [rejection]; rewrite on_response_malformed].
    cbn [history promises tasks calls].
    erewrite settle_done by (cbn [tasks]; apply lookup_insert_eq).
    eexists. split; [reflexivity|]. cbn [history promises tasks calls settled].
    rewrite Hlen. repeat split.
    + by apply list_lookup_insert_eq.
    + by rewrite lookup_delete_eq.
  - intros v. cbn [exec step].
    erewrite respond_parsed; [|done|by apply on_response_parsed].
    erewrite settle_done by (cbn [tasks]; apply lookup_insert_eq).
    eexists. split; [reflexivity|]. cbn [history promises tasks calls settled].
    repeat split. by apply list_lookup_insert_eq.
Qed.

(** One retry, two responses with status 500 and a body that is no JSON. *)
Lemma unparsable_response_is_retried_witness :
  ∃ s', exec (Call 0 "k" defaults
              :: failed_attempts 0 [(1%Z, Resolves (Response 500 (Malformed "<html>")))]
              ++ [Respond 2 0 (Resolves (Response 500 (Malformed "<html>")));
                  Settle 0]) init = Some s' ∧
        promises s' !! 0 = Some (Rejected (ParseError "<html>")) ∧
        history s' = {["k" := Item None None None]} ∧
        calls s' = ["k"; "k"].
Proof.
  assert (500%Z ≠ 404%Z) as H500 by lia.
  assert (Forall (λ c : Z * reply, unparsable c.2 = true)
            [(1%Z, Resolves (Response 500 (Malformed "<html>")))]) as Hcs
    by (repeat constructor).
  destruct (proj1 (proj2 (unparsable_response_is_retried 0 "k"
              (fetch 0 "k" defaults init).2 1
              [(1%Z, Resolves (Response 500 (Malformed "<html>")))]
              2 500 "<html>" eq_refl eq_refl Hcs H500)) eq_refl)
    as (s' & H1 & H2 & H3 & _ & H4).
  exists s'. repeat split; assumption.
Defined.

(** ** What a failed fetch leaves behind *)

Lemma stamp_entry_alter (f : item → item) k j (h : gmap string item) :
  (is_Some (h !! k) → j = k → stamp (f (entry k h)) = stamp (entry k h)) →
  stamp (entry j (alter f k h)) = stamp (entry j h).
Proof.
  intros Hf. unfold entry. rewrite lookup_alter. case_decide as E; [|done].
  subst j. destruct (h !! k) as [it|] eqn:Hk; [|done]. simpl.
  rewrite <- (entry_lookup _ _ _ Hk). by apply Hf.
Qed.

Lemma stamp_entry_insert k j (h : gmap string item) it :
  stamp it = stamp (entry k h) →
  stamp (entry j (<[k := it]> h)) = stamp (entry j h).
Proof.
  intros Hit. unfold entry at 1. rewrite lookup_insert. case_decide as E; [|done].
  by subst j.
Qed.

Lemma fetch_stamp now url o s k :
  stamp (entry k (history (fetch now url o s).2)) = stamp (entry k (history s)).
Proof.
  destruct (in_flight o (entry url (history s))) as [p|] eqn:E1.
  { rewrite (fetch_reuse _ _ _ _ _ E1). simpl. by rewrite entry_touch. }
  destruct (cache_hit now (entry url (history s)) (maxAge o)) as [d|] eqn:E2.
  - rewrite (fetch_hit _ _ _ _ _ E1 E2). simpl. by rewrite entry_touch.
  - rewrite (fetch_launch _ _ _ _ E1 E2). simpl.
    rewrite stamp_entry_insert, entry_touch; [done|].
    by rewrite entry_touch.
Qed.

Lemma step_stamp k e s s' :
  step e s = Some s' → writes k e s = false →
  stamp (entry k (history s')) = stamp (entry k (history s)).
Proof.
  destruct e as [now url o|now p r|p|p]; simpl; intros H Hw.
  - injection H as <-. apply fetch_stamp.
  - apply respond_Some in H as (url & n & Ep & ->). simpl.
    apply stamp_entry_alter. intros _ ->. rewrite Ep in Hw.
    destruct r as [res|m]; [|done]. simpl.
    destruct (on_response res); [|done].
    by rewrite bool_decide_eq_false in Hw.
  - by apply wake_Some in H as (url & n & Ep & ->).
  - apply settle_Some in H as (url & n & r & Ep & ->). simpl.
    by apply stamp_entry_alter.
Qed.

Lemma exec_stamp k es : ∀ s s',
  exec es s = Some s' → silent k es s = true →
  stamp (entry k (history s')) = stamp (entry k (history s)).
Proof.
  induction es as [|e es IH]; simpl; intros s s' H Hs.
  - by injection H as <-.
  - destruct (step e s) as [s1|] eqn:E; [|done].
    apply andb_true_iff in Hs as [Hw Hs]. apply negb_true_iff in Hw.
    rewrite (IH _ _ H Hs). by eapply step_stamp.
Qed.

(** C6, as stated, fails in two ways.  On a falsy cached value: 0 is cached
    for ["k"]; a refresh whose [maxAge] has run out fails with no retry left
    and its promise is rejected; the item still holds the 0, but the default
    call that follows does not return it: it makes another transport call and
    returns a pending promise.  And when another fetch for the same url
    succeeds in between: ["v"] is cached, a stale refresh (promise 1) and a
    forced one (promise 2) are both running, promise 2 is answered with
    ["w"], then promise 1 fails; the item then holds ["w"], not the ["v"] it
    held before the call that failed. *)
Example cache_after_failure :
  (exec [Call 5000 "k" (Options (Some 1%float) 0 false);
         Respond 5001 1 (Rejects "offline");
         Settle 1] (cached (JNum 0) 0)
   = Some (State {["k" := Item (Some (JNum 0)) (Some 0%Z) None]}
                 [Fulfilled (JNum 0); Rejected (FetchError "offline")] ∅
                 ["k"; "k"])
   ∧
   fetch 5002 "k" defaults
         (State {["k" := Item (Some (JNum 0)) (Some 0%Z) None]}
                [Fulfilled (JNum 0); Rejected (FetchError "offline")] ∅
                ["k"; "k"])
   = (2, State {["k" := Item (Some (JNum 0)) (Some 0%Z) (Some 2)]}
               [Fulfilled (JNum 0); Rejected (FetchError "offline"); Pending]
               {[2 := Task "k" 1 Attempting]} ["k"; "k"; "k"]))
  ∧
  exec [Call 5000 "k" (Options (Some 1%float) 0 false);
        Call 5000 "k" (Options (Some 1%float) 0 true);
        Respond 5001 2 (ok (JStr "w")); Settle 2;
        Respond 5002 1 (Rejects "offline"); Settle 1] (cached (JStr "v") 0)
  = Some (State {["k" := Item (Some (JStr "w")) (Some 5001%Z) None]}
                [Fulfilled (JStr "v"); Rejected (FetchError "offline");
                 Fulfilled (JStr "w")] ∅
                ["k"; "k"; "k"]).
Proof. repeat split; reflexivity. Qed.

(** C6, amended: take a call for [k] that returns promise [p], and any run
    after it in which no operation for [k] receives a response that parses,
    at the end of which the operation of [p] is done with error [e] (it was
    aborted, or its retries were used up).  Then the handler rejects [p] with
    [e] and leaves [k]'s item with no promise and with the data and timestamp
    it had before the call; and if that data is truthy, a call that follows
    at once, with the default [maxAge] or within its [maxAge], returns a
    promise fulfilled with that data and makes no transport call. *)
Theorem failed_fetch_keeps_cache now k o s p s1 es s2 n e :
  reachable s →
  fetch now k o s = (p, s1) →
  exec es s1 = Some s2 → silent k es s1 = true →
  tasks s2 !! p = Some (Task k n (Done (inr e))) →
  ∃ s3 it,
    settle p s2 = Some s3 ∧
    promises s3 !! p = Some (Rejected e) ∧
    history s3 !! k = Some it ∧ promise it = None ∧
    data it = data (entry k (history s)) ∧
    ts it = ts (entry k (history s)) ∧
    ∀ d now' o',
      data it = Some d → truthy d = true →
      maxAge o' = None ∨ fresh now' (ts it) (maxAge o') = true →
      fetch now' k o' s3
      = (length (promises s3),
         State (history s3) (promises s3 ++ [Fulfilled d]) (tasks s3) (calls s3)).
Proof.
  intros Hr Hcall Hes Hsil Ep.
  assert (s1 = (fetch now k o s).2) as Hs1 by by rewrite Hcall.
  assert (wf s2) as W2.
  { eapply wf_exec; [|done]. subst s1. apply wf_fetch. by apply reachable_wf. }
  destruct (wf_task _ W2 _ _ Ep) as [HP [it2 Hit2]]. simpl in Hit2.
  assert (stamp it2 = stamp (entry k (history s))) as Hst.
  { rewrite <- (entry_lookup _ _ _ Hit2), (exec_stamp _ _ _ _ Hes Hsil).
    subst s1. apply fetch_stamp. }
  injection Hst as Hd Ht.
  assert (settle p s2 = Some (State (alter (set_promise None) k (history s2))
            (<[p := Rejected e]> (promises s2)) (delete p (tasks s2)) (calls s2)))
    as Hset by apply (settle_done _ _ _ _ _ Ep).
  pose proof (wf_settle _ _ _ W2 Hset) as W3.
  eexists _, (set_promise None it2). split; [done|].
  cbn [history promises tasks calls].
  assert (alter (set_promise None) k (history s2) !! k
          = Some (set_promise None it2)) as Hk3.
  { by rewrite lookup_alter_eq, Hit2. }
  repeat split; try done.
  - apply list_lookup_insert_eq. by apply lookup_lt_Some in HP.
  - intros d now' o' Hd' Hy Hage. simpl in Hd'.
    rewrite (fetch_hit _ _ _ _ d); cbn [history promises tasks calls].
    + by rewrite touch_present by eauto.
    + rewrite (entry_lookup _ _ _ Hk3). unfold in_flight. simpl.
      by destruct (force o').
    + rewrite (entry_lookup _ _ _ Hk3). apply cache_hit_Some.
      split; [done|]. split; [done|]. simpl.
      destruct Hage as [-> | Hage]; [|done].
      destruct (proj1 (wf_stamp _ W2 _ _ Hit2)) as [t0 Ht0]; [eauto|].
      by rewrite Ht0.
Qed.

(** ["v"] is cached; a refresh after [maxAge] has run out fails with no
    retry left; the default call that follows is served the cached ["v"]. *)
Lemma failed_fetch_keeps_cache_witness :
  ∃ s3 it,
    settle 1 (State {["k" := Item (Some (JStr "v")) (Some 0%Z) (Some 1)]}
                    [Fulfilled (JStr "v"); Pending]
                    {[1 := Task "k" 0 (Done (inr (FetchError "offline")))]}
                    ["k"; "k"]) = Some s3 ∧
    promises s3 !! 1 = Some (Rejected (FetchError "offline")) ∧
    history s3 !! "k" = Some it ∧ promise it = None ∧
    data it = Some (JStr "v") ∧
    ts it = Some 0%Z ∧
    ∀ d now' o',
      data it = Some d → truthy d = true →
      maxAge o' = None ∨ fresh now' (ts it) (maxAge o') = true →
      fetch now' "k" o' s3
      = (length (promises s3),
         State (history s3) (promises s3 ++ [Fulfilled d]) (tasks s3) (calls s3)).
Proof.
  exact (failed_fetch_keeps_cache 5000 "k" (Options (Some 1%float) 0 false)
           (cached (JStr "v") 0) 1
           (State {["k" := Item (Some (JStr "v")) (Some 0%Z) (Some 1)]}
                  [Fulfilled (JStr "v"); Pending]
                  {[1 := Task "k" 0 Attempting]} ["k"; "k"])
           [Respond 5001 1 (Rejects "offline")]
           (State {["k" := Item (Some (JStr "v")) (Some 0%Z) (Some 1)]}
                  [Fulfilled (JStr "v"); Pending]
                  {[1 := Task "k" 0 (Done (inr (FetchError "offline")))]}
                  ["k"; "k"])
           0 (FetchError "offline")
           (cached_reachable (JStr "v") 0) eq_refl eq_refl eq_refl eq_refl).
Defined.

(** ** The unconditional delete *)

(** C10, as stated, fails when the earlier fetch succeeds: a default call and
    then a forced call for ["k"] launch promises 0 and 1; promise 0 is
    answered with ["v"] and settles, which empties the item's promise slot
    while promise 1 is still running; the default call that follows makes no
    transport call: it is served the cached ["v"]. *)
Example later_call_served_from_cache :
  exec [Call 0 "k" defaults; Call 1 "k" forced;
        Respond 2 0 (ok (JStr "v")); Settle 0] init
  = Some (State {["k" := Item (Some (JStr "v")) (Some 2%Z) None]}
                [Fulfilled (JStr "v"); Pending]
                {[1 := Task "k" 1 Attempting]} ["k"; "k"])
  ∧
  fetch 3 "k" defaults
        (State {["k" := Item (Some (JStr "v")) (Some 2%Z) None]}
               [Fulfilled (JStr "v"); Pending]
               {[1 := Task "k" 1 Attempting]} ["k"; "k"])
  = (2, State {["k" := Item (Some (JStr "v")) (Some 2%Z) None]}
              [Fulfilled (JStr "v"); Pending; Fulfilled (JStr "v")]
              {[1 := Task "k" 1 Attempting]} ["k"; "k"]).
Proof. split; reflexivity. Qed.

(** C10, amended: the handler deletes the item's promise whatever it is.
    When an operation [p] for [k] settles while the item of [k] holds another
    promise [q] (as after a forced call made while [p] was running), the
    item is left with no promise although the operation of [q] is still
    running and [q] is still pending; a call with [force] false that follows
    and is not served truthy cached data within its [maxAge] therefore
    makes a further transport call and registers a third promise. *)
Theorem settle_deletes_newer_promise s p q k n r it :
  reachable s →
  tasks s !! p = Some (Task k n (Done r)) →
  history s !! k = Some it → promise it = Some q → q ≠ p →
  ∃ s' t,
    settle p s = Some s' ∧
    history s' !! k = Some (set_promise None it) ∧
    tasks s' !! q = Some t ∧ t_url t = k ∧
    promises s' !! q = Some Pending ∧
    ∀ now o,
      force o = false →
      cache_hit now it (maxAge o) = None →
      length (promises s') ≠ q ∧
      fetch now k o s'
      = (length (promises s'),
         State (<[k := set_promise (Some (length (promises s'))) it]> (history s'))
               (promises s' ++ [Pending])
               (<[length (promises s') := Task k (retries o) Attempting]> (tasks s'))
               (calls s' ++ [k])).
Proof.
  intros Hr Ep Hk Hq Hne. pose proof (reachable_wf _ Hr) as W.
  destruct (wf_slot _ W _ _ _ Hk Hq) as (t & Et & Hu).
  destruct (wf_task _ W _ _ Et) as [HPq _].
  rewrite (settle_done _ _ _ _ _ Ep). eexists _, t. split; [done|].
  cbn [history promises tasks calls].
  assert (alter (set_promise None) k (history s) !! k
          = Some (set_promise None it)) as Hk'.
  { by rewrite lookup_alter_eq, Hk. }
  split; [done|]. split; [by rewrite lookup_delete_ne|]. split; [done|].
  split; [by rewrite list_lookup_insert_ne|].
  intros now o Ho Hmiss. split.
  - rewrite length_insert. apply lookup_lt_Some in HPq. lia.
  - rewrite fetch_launch; cbn [history promises tasks calls];
      rewrite ?(entry_lookup _ _ _ Hk').
    + by rewrite touch_present by eauto.
    + unfold in_flight. by rewrite Ho.
    + done.
Qed.

(** Promise 0 is aborted by a 404 while the forced promise 1 is running;
    the default call that follows launches promise 2. *)
Lemma settle_deletes_newer_promise_witness :
  ∃ s' t,
    settle 0 (State {["k" := Item None None (Some 1)]} [Pending; Pending]
                    {[0 := Task "k" 1 (Done (inr (AbortError "404 Not found")));
                      1 := Task "k" 1 Attempting]} ["k"; "k"]) = Some s' ∧
    history s' !! "k" = Some (Item None None None) ∧
    tasks s' !! 1 = Some t ∧ t_url t = "k" ∧
    promises s' !! 1 = Some Pending ∧
    ∀ now o,
      force o = false →
      cache_hit now (Item None None (Some 1)) (maxAge o) = None →
      length (promises s') ≠ 1 ∧
      fetch now "k" o s'
      = (length (promises s'),
         State (<[ "k" := Item None None (Some (length (promises s')))]> (history s'))
               (promises s' ++ [Pending])
               (<[length (promises s') := Task "k" (retries o) Attempting]> (tasks s'))
               (calls s' ++ ["k"])).
Proof.
  refine (settle_deletes_newer_promise
           (State {["k" := Item None None (Some 1)]} [Pending; Pending]
                  {[0 := Task "k" 1 (Done (inr (AbortError "404 Not found")));
                    1 := Task "k" 1 Attempting]} ["k"; "k"])
           0 1 "k" 1 (inr (AbortError "404 Not found")) (Item None None (Some 1))
           _ _ _ _ _).
  - exists [Call 0 "k" defaults; Call 1 "k" forced;
            Respond 2 0 (Resolves (Response 404 (Malformed "")))].
    vm_compute. reflexivity.
  - vm_compute. reflexivity.
  - reflexivity.
  - reflexivity.
  - lia.
Defined.

(** * Further properties of [Network.fetch] and its callbacks *)

(** ** What every reachable state satisfies *)

(** X1: in every state reached from the empty history by calls and
    callbacks, a promise registered in an item is pending and is the promise
    of an operation running for that item's url; the promise of every running
    operation is pending and its item exists; and an item has [data] exactly
    when it has [ts]. *)
Theorem reachable_state_invariant s :
  reachable s →
  (∀ k it p, history s !! k = Some it → promise it = Some p →
     promises s !! p = Some Pending ∧
     ∃ t, tasks s !! p = Some t ∧ t_url t = k)
  ∧
  (∀ p t, tasks s !! p = Some t →
     promises s !! p = Some Pending ∧ is_Some (history s !! t_url t))
  ∧
  (∀ k it, history s !! k = Some it → is_Some (data it) ↔ is_Some (ts it)).
Proof.
  intros Hr. pose proof (reachable_wf _ Hr) as W. split; [|split].
  - intros k it p Hk Hp. destruct (wf_slot _ W _ _ _ Hk Hp) as (t & Et & Hu).
    destruct (wf_task _ W _ _ Et) as [HP _]. eauto.
  - apply (wf_task _ W).
  - apply (wf_stamp _ W).
Qed.

(** After a default call and a forced call for ["k"]: promise 1 is
    registered, pending, and belongs to a running operation for ["k"]. *)
Lemma reachable_state_invariant_witness :
  promises (State {["k" := Item None None (Some 1)]} [Pending; Pending]
                  {[0 := Task "k" 1 Attempting; 1 := Task "k" 1 Attempting]}
                  ["k"; "k"]) !! 1 = Some Pending
  ∧ ∃ t, tasks (State {["k" := Item None None (Some 1)]} [Pending; Pending]
                      {[0 := Task "k" 1 Attempting; 1 := Task "k" 1 Attempting]}
                      ["k"; "k"]) !! 1 = Some t ∧ t_url t = "k".
Proof.
  refine (proj1 (reachable_state_invariant
            (State {["k" := Item None None (Some 1)]} [Pending; Pending]
                   {[0 := Task "k" 1 Attempting; 1 := Task "k" 1 Attempting]}
                   ["k"; "k"]) _) "k" (Item None None (Some 1)) 1 _ _).
  - exists [Call 0 "k" defaults; Call 1 "k" forced]. vm_compute. reflexivity.
  - vm_compute. reflexivity.
  - reflexivity.
Defined.

(** ** One operation per url, unless forced *)

Lemma entry_insert_eq k (h : gmap string item) it :
  entry k (<[k := it]> h) = it.
Proof. unfold entry. by rewrite lookup_insert_eq. Qed.

Lemma entry_insert_ne k j (h : gmap string item) it :
  k ≠ j → entry j (<[k := it]> h) = entry j h.
Proof. intros Hne. unfold entry. by rewrite lookup_insert_ne. Qed.

Lemma entry_alter_ne (f : item → item) k j (h : gmap string item) :
  k ≠ j → entry j (alter f k h) = entry j h.
Proof. intros Hne. unfold entry. by rewrite lookup_alter_ne. Qed.

Lemma promise_entry_alter (f : item → item) k (h : gmap string item) :
  (∀ it, h !! k = Some it → promise (f it) = promise it) →
  promise (entry k (alter f k h)) = promise (entry k h).
Proof.
  intros Hf. unfold entry. rewrite lookup_alter_eq.
  destruct (h !! k) as [it|] eqn:E; simpl; [|done]. by apply Hf.
Qed.

Lemma single_flight_init k : single_flight k init.
Proof. intros p t. simpl. by rewrite lookup_empty. Qed.

Lemma single_flight_fetch k now url o s :
  (url = k → force o = false) →
  single_flight k s → single_flight k (fetch now url o s).2.
Proof.
  intros Hforce I.
  destruct (in_flight o (entry url (history s))) as [p0|] eqn:E1.
  { rewrite (fetch_reuse _ _ _ _ _ E1). intros p t. simpl.
    rewrite entry_touch. apply I. }
  destruct (cache_hit now (entry url (history s)) (maxAge o)) as [d|] eqn:E2.
  { rewrite (fetch_hit _ _ _ _ _ E1 E2). intros p t. simpl.
    rewrite entry_touch. apply I. }
  rewrite (fetch_launch _ _ _ _ E1 E2). intros q t. simpl.
  rewrite lookup_insert. case_decide as Hq.
  - intros [= <-] Hu. simpl in Hu. subst url q.
    by rewrite entry_insert_eq.
  - intros Et Hu. pose proof (I _ _ Et Hu) as Hslot.
    destruct (decide (url = k)) as [->|Hne].
    + unfold in_flight in E1. rewrite (Hforce eq_refl) in E1. congruence.
    + by rewrite entry_insert_ne, entry_touch.
Qed.

Lemma single_flight_step k e s s' :
  match e with Call _ url o => url = k → force o = false | _ => True end →
  single_flight k s → step e s = Some s' → single_flight k s'.
Proof.
  destruct e as [now url o|now p r|p|p]; simpl; intros Hforce I H.
  - injection H as <-. by apply single_flight_fetch.
  - apply respond_Some in H as (url & n & Ep & ->). intros q t. simpl.
    assert (promise (entry k (alter (λ _, (run now r (entry url (history s))).2)
                                    url (history s)))
            = promise (entry k (history s))) as Hsame.
    { destruct (decide (url = k)) as [->|Hne]; [|by rewrite entry_alter_ne].
      apply promise_entry_alter. intros it Hit.
      by rewrite run_promise, (entry_lookup _ _ _ Hit). }
    rewrite Hsame, lookup_insert. case_decide as Hq.
    + intros [= <-] Hu. simpl in Hu. subst q. by apply (I _ _ Ep).
    + apply I.
  - apply wake_Some in H as (url & n & Ep & ->). intros q t. simpl.
    rewrite lookup_insert. case_decide as Hq; [|apply I].
    intros [= <-] Hu. simpl in Hu. subst q. by apply (I _ _ Ep).
  - apply settle_Some in H as (url & n & r & Ep & ->). intros q t. simpl.
    rewrite lookup_delete. case_decide as Hq; [done|]. intros Et Hu.
    pose proof (I _ _ Et Hu) as Hslot.
    destruct (decide (url = k)) as [->|Hne]; [|by rewrite entry_alter_ne].
    pose proof (I _ _ Ep eq_refl) as Hslot'. congruence.
Qed.

Lemma single_flight_exec k es : ∀ s s',
  unforced k es = true → single_flight k s → exec es s = Some s' →
  single_flight k s'.
Proof.
  induction es as [|e es IH]; simpl; intros s s' Hu I H.
  - by injection H as <-.
  - destruct (step e s) as [s1|] eqn:E; [|done].
    apply andb_true_iff in Hu as [He Hu].
    eapply IH; [done| |done]. eapply single_flight_step; [|done|done].
    destruct e as [now url o| | |]; [|done..].
    intros ->. rewrite bool_decide_eq_true_2 in He by done.
    simpl in He. by apply negb_true_iff in He.
Qed.

(** X2: in a run from the empty history in which no call for [k] sets
    [force], at most one operation is running for [k] at any time, and while
    one is running its promise is the one registered in [k]'s item, so every
    call for [k] made meanwhile is given that promise. *)
Theorem single_flight_without_force k es s p q t t' :
  exec es init = Some s → unforced k es = true →
  tasks s !! p = Some t → t_url t = k →
  tasks s !! q = Some t' → t_url t' = k →
  p = q ∧ promise (entry k (history s)) = Some p.
Proof.
  intros Hes Hu Ep Hp Eq Hq.
  pose proof (single_flight_exec _ _ _ _ Hu (single_flight_init k) Hes) as I.
  pose proof (I _ _ Ep Hp) as H1. pose proof (I _ _ Eq Hq) as H2.
  split; [congruence|done].
Qed.

(** Two default calls for ["k"] and a failed first attempt: the one
    operation running for ["k"] is that of promise 0. *)
Lemma single_flight_without_force_witness :
  0 = 0 ∧
  promise (entry "k" (history (State {["k" := Item None None (Some 0)]}
                                     [Pending] {[0 := Task "k" 0 Delayed]}
                                     ["k"]))) = Some 0.
Proof.
  refine (single_flight_without_force "k"
            [Call 0 "k" defaults; Call 1 "k" defaults;
             Respond 2 0 (Rejects "offline")]
            (State {["k" := Item None None (Some 0)]} [Pending]
                   {[0 := Task "k" 0 Delayed]} ["k"])
            0 0 (Task "k" 0 Delayed) (Task "k" 0 Delayed) _ _ _ _ _ _);
    vm_compute; reflexivity.
Defined.

(** ** What calls and callbacks never do *)

Lemma fetch_promises now url o s :
  ∃ l, promises (fetch now url o s).2 = promises s ++ l.
Proof.
  destruct (in_flight o (entry url (history s))) as [p|] eqn:E1.
  { rewrite (fetch_reuse _ _ _ _ _ E1). exists []. simpl. by rewrite app_nil_r. }
  destruct (cache_hit now (entry url (history s)) (maxAge o)) as [d|] eqn:E2.
  - rewrite (fetch_hit _ _ _ _ _ E1 E2). by eexists.
  - rewrite (fetch_launch _ _ _ _ E1 E2). by eexists.
Qed.

Lemma step_settled e s s' p st :
  wf s → step e s = Some s' →
  promises s !! p = Some st → st ≠ Pending → promises s' !! p = Some st.
Proof.
  destruct e as [now url o|now q r|q|q]; simpl; intros W H HP Hst.
  - injection H as <-. destruct (fetch_promises now url o s) as [l ->].
    by apply lookup_app_l_Some.
  - by apply respond_Some in H as (url & n & Ep & ->).
  - by apply wake_Some in H as (url & n & Ep & ->).
  - apply settle_Some in H as (url & n & r & Ep & ->). simpl.
    destruct (wf_task _ W _ _ Ep) as [HQ _].
    rewrite list_lookup_insert_ne; [done|]. intros <-.
    pose proof (eq_trans (eq_sym HP) HQ) as E. by injection E as ->.
Qed.

(** X3: a promise that is fulfilled or rejected stays so, with the same
    value or error, whatever calls and callbacks follow: promises are never
    reused, and only the handler of a running operation settles one, its
    own, which is pending. *)
Theorem settled_promise_is_final es s s' p st :
  reachable s → exec es s = Some s' →
  promises s !! p = Some st → st ≠ Pending →
  promises s' !! p = Some st.
Proof.
  intros Hr. apply reachable_wf in Hr. revert s Hr.
  induction es as [|e es IH]; simpl; intros s W H HP Hst.
  - by injection H as <-.
  - destruct (step e s) as [s1|] eqn:E; [|done].
    eapply IH; [by eapply wf_step|done| |done].
    by eapply step_settled.
Qed.

(** Promise 0 was fulfilled with ["v"]; a stale refresh that fails does not
    change it. *)
Lemma settled_promise_is_final_witness :
  promises (State {["k" := Item (Some (JStr "v")) (Some 0%Z) None]}
                  [Fulfilled (JStr "v"); Rejected (FetchError "offline")] ∅
                  ["k"; "k"]) !! 0 = Some (Fulfilled (JStr "v")).
Proof.
  refine (settled_promise_is_final
            [Call 5000 "k" (Options (Some 1%float) 0 false);
             Respond 5001 1 (Rejects "offline"); Settle 1]
            (cached (JStr "v") 0) _ 0 (Fulfilled (JStr "v"))
            (cached_reachable _ _) _ _ _).
  - vm_compute. reflexivity.
  - reflexivity.
  - discriminate.
Defined.

Lemma step_keeps_data e s s' k it :
  step e s = Some s' → history s !! k = Some it →
  ∃ it', history s' !! k = Some it' ∧ (is_Some (data it) → is_Some (data it')).
Proof.
  destruct e as [now url o|now q r|q|q]; simpl; intros H Hk.
  - injection H as <-.
    assert (touch url (history s) !! k = Some it) as Hk'.
    { destruct (decide (url = k)) as [->|Hne].
      - by rewrite touch_lookup, (entry_lookup _ _ _ Hk).
      - by rewrite touch_lookup_ne. }
    destruct (in_flight o (entry url (history s))) as [p|] eqn:E1.
    { rewrite (fetch_reuse _ _ _ _ _ E1). eauto. }
    destruct (cache_hit now (entry url (history s)) (maxAge o)) as [d|] eqn:E2.
    { rewrite (fetch_hit _ _ _ _ _ E1 E2). eauto. }
    rewrite (fetch_launch _ _ _ _ E1 E2). simpl.
    rewrite lookup_insert. case_decide as Hu; [|eauto]. subst url.
    eexists. split; [done|]. simpl. by rewrite (entry_lookup _ _ _ Hk).
  - apply respond_Some in H as (url & n & Ep & ->). simpl.
    rewrite lookup_alter. case_decide as Hu; [|eauto]. subst url.
    rewrite Hk. simpl. eexists. split; [done|].
    rewrite (entry_lookup _ _ _ Hk).
    destruct r as [res|m]; simpl; [|done].
    destruct (on_response res); simpl; [eauto|done].
  - apply wake_Some in H as (url & n & Ep & ->). eauto.
  - apply settle_Some in H as (url & n & r & Ep & ->). simpl.
    rewrite lookup_alter. case_decide as Hu; [|eauto]. subst url.
    rewrite Hk. simpl. eauto.
Qed.

(** X4: nothing is ever evicted.  An entry of the history stays in it, and
    an item that holds data holds data ever after (a later success replaces
    it, a failure, a call or a settlement leaves it), whatever calls and
    callbacks follow. *)
Theorem entries_and_data_are_kept es s s' k it :
  exec es s = Some s' → history s !! k = Some it →
  ∃ it', history s' !! k = Some it' ∧ (is_Some (data it) → is_Some (data it')).
Proof.
  revert s it. induction es as [|e es IH]; simpl; intros s it H Hk.
  - injection H as <-. eauto.
  - destruct (step e s) as [s1|] eqn:E; [|done].
    destruct (step_keeps_data _ _ _ _ _ E Hk) as (it1 & Hk1 & Hd1).
    destruct (IH _ _ H Hk1) as (it' & Hk' & Hd'). eauto.
Qed.

(** ["v"] is cached; a stale refresh is aborted by a 404: the entry and its
    data are still there. *)
Lemma entries_and_data_are_kept_witness :
  ∃ it', history (State {["k" := Item (Some (JStr "v")) (Some 0%Z) None]}
                        [Fulfilled (JStr "v"); Rejected (AbortError "404 Not found")]
                        ∅ ["k"; "k"]) !! "k" = Some it' ∧
         (is_Some (Some (JStr "v")) → is_Some (data it')).
Proof.
  refine (entries_and_data_are_kept
            [Call 5000 "k" (Options (Some 1%float) 3 false);
             Respond 5001 1 (Resolves (Response 404 (Malformed "")));
             Settle 1]
            (cached (JStr "v") 0) _ "k" (Item (Some (JStr "v")) (Some 0%Z) None)
            _ _); vm_compute; reflexivity.
Defined.

(** X5: an event about one url (a call for it, or a callback of an operation
    launched for it) leaves the entry of every other url as it was, absent
    ones included. *)
Theorem other_urls_untouched e s s' k j :
  step e s = Some s' → event_url e s = Some k → j ≠ k →
  history s' !! j = history s !! j.
Proof.
  destruct e as [now url o|now q r|q|q]; simpl; intros H Hu Hne.
  - injection H as <-. injection Hu as ->.
    destruct (in_flight o (entry k (history s))) as [p|] eqn:E1.
    { rewrite (fetch_reuse _ _ _ _ _ E1). simpl. by rewrite touch_lookup_ne. }
    destruct (cache_hit now (entry k (history s)) (maxAge o)) as [d|] eqn:E2.
    { rewrite (fetch_hit _ _ _ _ _ E1 E2). simpl. by rewrite touch_lookup_ne. }
    rewrite (fetch_launch _ _ _ _ E1 E2). simpl.
    by rewrite lookup_insert_ne, touch_lookup_ne.
  - apply respond_Some in H as (url & n & Ep & ->). rewrite Ep in Hu.
    injection Hu as ->. simpl. by rewrite lookup_alter_ne.
  - by apply wake_Some in H as (url & n & Ep & ->).
  - apply settle_Some in H as (url & n & r & Ep & ->). rewrite Ep in Hu.
    injection Hu as ->. simpl. by rewrite lookup_alter_ne.
Qed.

(** ["v"] is cached for ["k"]; a call for ["j"] does not touch it. *)
Lemma other_urls_untouched_witness :
  history (fetch 1 "j" forced (cached (JStr "v") 0)).2 !! "k"
  = history (cached (JStr "v") 0) !! "k".
Proof.
  refine (other_urls_untouched (Call 1 "j" forced) (cached (JStr "v") 0) _
            "j" "k" eq_refl eq_refl _).
  discriminate.
Defined.

(** ** What a call returns and what it leaves alone *)

(** X6: in a reachable state, the promise a call returns is, when the call
    returns, either pending or fulfilled with the truthy data the item held:
    a call never returns a rejected promise, nor one missing from the
    store. *)
Theorem fetch_returns_pending_or_cached now k o s :
  reachable s →
  promises (fetch now k o s).2 !! (fetch now k o s).1 = Some Pending
  ∨ ∃ d, promises (fetch now k o s).2 !! (fetch now k o s).1
         = Some (Fulfilled d)
         ∧ data (entry k (history s)) = Some d ∧ truthy d = true.
Proof.
  intros Hr. pose proof (reachable_wf _ Hr) as W.
  destruct (in_flight o (entry k (history s))) as [p|] eqn:E1.
  { rewrite (fetch_reuse _ _ _ _ _ E1). simpl. left.
    unfold in_flight in E1. destruct (force o); [done|].
    unfold entry in E1. destruct (history s !! k) as [it|] eqn:Hk; [|done].
    destruct (wf_slot _ W _ _ _ Hk E1) as (t & Et & _).
    by destruct (wf_task _ W _ _ Et). }
  destruct (cache_hit now (entry k (history s)) (maxAge o)) as [d|] eqn:E2.
  - rewrite (fetch_hit _ _ _ _ _ E1 E2). simpl. right. exists d.
    apply cache_hit_Some in E2 as (Hd & Hy & _).
    split; [|done]. by rewrite lookup_app_r, Nat.sub_diag by lia.
  - rewrite (fetch_launch _ _ _ _ E1 E2). simpl. left.
    by rewrite lookup_app_r, Nat.sub_diag by lia.
Qed.

Lemma fetch_returns_pending_or_cached_witness :
  promises (fetch 1 "k" defaults (cached (JStr "v") 0)).2
    !! (fetch 1 "k" defaults (cached (JStr "v") 0)).1 = Some Pending
  ∨ ∃ d, promises (fetch 1 "k" defaults (cached (JStr "v") 0)).2
           !! (fetch 1 "k" defaults (cached (JStr "v") 0)).1
         = Some (Fulfilled d)
         ∧ data (entry "k" (history (cached (JStr "v") 0))) = Some d
         ∧ truthy d = true.
Proof.
  exact (fetch_returns_pending_or_cached 1 "k" defaults (cached (JStr "v") 0)
           (cached_reachable _ _)).
Defined.

Lemma fetch_tasks now url o s p t :
  wf s → tasks s !! p = Some t → tasks (fetch now url o s).2 !! p = Some t.
Proof.
  intros W Ep.
  destruct (in_flight o (entry url (history s))) as [p0|] eqn:E1.
  { by rewrite (fetch_reuse _ _ _ _ _ E1). }
  destruct (cache_hit now (entry url (history s)) (maxAge o)) as [d|] eqn:E2.
  { by rewrite (fetch_hit _ _ _ _ _ E1 E2). }
  rewrite (fetch_launch _ _ _ _ E1 E2). simpl.
  rewrite lookup_insert_ne; [done|].
  intros <-. apply (task_fresh _ _ _ W) in Ep. lia.
Qed.

(** X7: a call, forced or not and for whatever url, cancels nothing and
    writes no data: every operation running before it is running after it in
    the same phase and with the same retries left, its promise still
    pending, and every item has the data and timestamp it had. *)
Theorem call_leaves_operations_and_data now url o s p t :
  reachable s → tasks s !! p = Some t →
  tasks (fetch now url o s).2 !! p = Some t ∧
  promises (fetch now url o s).2 !! p = Some Pending ∧
  ∀ j, stamp (entry j (history (fetch now url o s).2))
       = stamp (entry j (history s)).
Proof.
  intros Hr Ep. pose proof (reachable_wf _ Hr) as W.
  split; [by apply fetch_tasks|]. split; [|intros j; apply fetch_stamp].
  destruct (wf_task _ W _ _ Ep) as [HP _].
  destruct (fetch_promises now url o s) as [l ->].
  by apply lookup_app_l_Some.
Qed.

(** A forced call for ["k"] while promise 0 is running for ["k"]. *)
Lemma call_leaves_operations_and_data_witness :
  tasks (fetch 1 "k" forced (fetch 0 "k" defaults init).2).2 !! 0
  = Some (Task "k" 1 Attempting) ∧
  promises (fetch 1 "k" forced (fetch 0 "k" defaults init).2).2 !! 0
  = Some Pending ∧
  ∀ j, stamp (entry j (history (fetch 1 "k" forced
                                 (fetch 0 "k" defaults init).2).2))
       = stamp (entry j (history (fetch 0 "k" defaults init).2)).
Proof.
  refine (call_leaves_operations_and_data 1 "k" forced
            (fetch 0 "k" defaults init).2 0 (Task "k" 1 Attempting) _ _).
  - exists [Call 0 "k" defaults]. reflexivity.
  - vm_compute. reflexivity.
Defined.

(** ** Two operations for one url *)

(** X8: when two operations are running for the same url (one of them
    launched by a forced call) and both are answered with bodies that parse,
    the item ends with the value and the time of the response that arrived
    last, whichever operation it belongs to: an older request answered later
    overwrites the newer one's data. *)
Theorem last_response_wins s p q k n m t1 t2 st1 st2 v1 v2 :
  tasks s !! p = Some (Task k n Attempting) →
  tasks s !! q = Some (Task k m Attempting) →
  p ≠ q → is_Some (history s !! k) →
  st1 ≠ 404%Z → st2 ≠ 404%Z →
  ∃ s', exec [Respond t1 p (Resolves (Response st1 (Parsed v1)));
              Respond t2 q (Resolves (Response st2 (Parsed v2)))] s = Some s' ∧
        data (entry k (history s')) = Some v2 ∧
        ts (entry k (history s')) = Some t2.
Proof.
  intros Ep Eq Hne [it Hk] H1 H2. cbn [exec step].
  erewrite respond_parsed; [|done|by apply on_response_parsed].
  erewrite respond_parsed;
    [|by cbn [tasks]; rewrite lookup_insert_ne|by apply on_response_parsed].
  eexists. split; [reflexivity|]. cbn [history].
  unfold entry. by rewrite !lookup_alter_eq, Hk.
Qed.

(** Promise 0 (default call) and promise 1 (forced call) run for ["k"];
    promise 1 is answered first, promise 0 last: the item holds the older
    request's value. *)
Lemma last_response_wins_witness :
  ∃ s', exec [Respond 5 1 (ok (JStr "new")); Respond 6 0 (ok (JStr "old"))]
             (State {["k" := Item None None (Some 1)]} [Pending; Pending]
                    {[0 := Task "k" 1 Attempting; 1 := Task "k" 1 Attempting]}
                    ["k"; "k"]) = Some s' ∧
        data (entry "k" (history s')) = Some (JStr "old") ∧
        ts (entry "k" (history s')) = Some 6%Z.
Proof.
  refine (last_response_wins
            (State {["k" := Item None None (Some 1)]} [Pending; Pending]
                   {[0 := Task "k" 1 Attempting; 1 := Task "k" 1 Attempting]}
                   ["k"; "k"])
            1 0 "k" 1 1 5 6 200 200 (JStr "new") (JStr "old") _ _ _ _ _ _).
  - vm_compute. reflexivity.
  - vm_compute. reflexivity.
  - lia.
  - vm_compute. eauto.
  - lia.
  - lia.
Defined.

(** ** The cache check is monotone *)





(** ** From a successful response to the next call *)

(** X10: what a successful fetch stores is what the next call reads.  When a
    running operation for [k] is answered (status other than 404) with a body
    that parses to a truthy [v] and its handler has run, its promise is
    fulfilled with [v], and a call for [k] with the default [maxAge], or
    within its [maxAge] of the time of the response, returns a new promise
    fulfilled with [v] and changes nothing else: no transport call, even if
    another operation is still running for [k] and whether or not the call
    sets [force]. *)
Theorem success_is_served_next s p k n t st v now' o' :
  reachable s →
  tasks s !! p = Some (Task k n Attempting) →
  st ≠ 404%Z → truthy v = true →
  maxAge o' = None ∨ fresh now' (Some t) (maxAge o') = true →
  ∃ s2, exec [Respond t p (Resolves (Response st (Parsed v))); Settle p] s
        = Some s2 ∧
        promises s2 !! p = Some (Fulfilled v) ∧
        fetch now' k o' s2
        = (length (promises s2),
           State (history s2) (promises s2 ++ [Fulfilled v])
                 (tasks s2) (calls s2)).
Proof.
  intros Hr Ep Hst Hy Hage. pose proof (reachable_wf _ Hr) as W.
  destruct (wf_task _ W _ _ Ep) as [HP [it Hk]]. simpl in Hk.
  cbn [exec step].
  erewrite respond_parsed; [|done|by apply on_response_parsed].
  erewrite settle_done by (cbn [tasks]; apply lookup_insert_eq).
  eexists. split; [reflexivity|]. cbn [history promises tasks calls settled].
  split. { apply list_lookup_insert_eq. by apply lookup_lt_Some in HP. }
  assert (alter (set_promise None) k (alter (store t v) k (history s)) !! k
          = Some (Item (Some v) (Some t) None)) as Hk2.
  { by rewrite !lookup_alter_eq, Hk. }
  rewrite (fetch_hit _ _ _ _ v); cbn [history promises tasks calls].
  - by rewrite touch_present by eauto.
  - rewrite (entry_lookup _ _ _ Hk2). unfold in_flight. simpl.
    by destruct (force o').
  - rewrite (entry_lookup _ _ _ Hk2). apply cache_hit_Some. simpl.
    split; [done|]. split; [done|]. by destruct Hage as [-> | Hage].
Qed.

(** Promise 0 is answered with ["v"] while the forced promise 1 is still
    running; the forced call that follows is served ["v"]. *)
Lemma success_is_served_next_witness :
  ∃ s2, exec [Respond 5 0 (ok (JStr "v")); Settle 0]
             (State {["k" := Item None None (Some 1)]} [Pending; Pending]
                    {[0 := Task "k" 1 Attempting; 1 := Task "k" 1 Attempting]}
                    ["k"; "k"]) = Some s2 ∧
        promises s2 !! 0 = Some (Fulfilled (JStr "v")) ∧
        fetch 6 "k" forced s2
        = (length (promises s2),
           State (history s2) (promises s2 ++ [Fulfilled (JStr "v")])
                 (tasks s2) (calls s2)).
Proof.
  refine (success_is_served_next
            (State {["k" := Item None None (Some 1)]} [Pending; Pending]
                   {[0 := Task "k" 1 Attempting; 1 := Task "k" 1 Attempting]}
                   ["k"; "k"])
            0 "k" 1 5 200 (JStr "v") 6 forced _ _ _ _ _).
  - exists [Call 0 "k" defaults; Call 1 "k" forced]. vm_compute. reflexivity.
  - vm_compute. reflexivity.
  - lia.
  - reflexivity.
  - by left.
Defined.

(** ** Coalescing, up to settlement *)

Lemma entry_promise_lookup k (h : gmap string item) p :
  promise (entry k h) = Some p → ∃ it, h !! k = Some it ∧ promise it = Some p.
Proof. unfold entry. destruct (h !! k) as [it|]; [eauto|done]. Qed.

Lemma fetch_entry_ne now url o s k :
  url ≠ k → entry k (history (fetch now url o s).2) = entry k (history s).
Proof.
  intros Hne.
  destruct (in_flight o (entry url (history s))) as [p|] eqn:E1.
  { rewrite (fetch_reuse _ _ _ _ _ E1). simpl. by rewrite entry_touch. }
  destruct (cache_hit now (entry url (history s)) (maxAge o)) as [d|] eqn:E2.
  - rewrite (fetch_hit _ _ _ _ _ E1 E2). simpl. by rewrite entry_touch.
  - rewrite (fetch_launch _ _ _ _ E1 E2). simpl.
    by rewrite entry_insert_ne, entry_touch.
Qed.

Lemma fetch_tasks_inv now url o s q t :
  tasks (fetch now url o s).2 !! q = Some t →
  tasks s !! q = Some t ∨ t_url t = url.
Proof.
  destruct (in_flight o (entry url (history s))) as [p|] eqn:E1.
  { rewrite (fetch_reuse _ _ _ _ _ E1). by left. }
  destruct (cache_hit now (entry url (history s)) (maxAge o)) as [d|] eqn:E2.
  - rewrite (fetch_hit _ _ _ _ _ E1 E2). by left.
  - rewrite (fetch_launch _ _ _ _ E1 E2). simpl. rewrite lookup_insert.
    case_decide; [|by left]. intros [= <-]. by right.
Qed.

Lemma invocations_app k s l h p ts :
  invocations k (State h p ts (calls s ++ l))
  = invocations k s + length (filter (λ u, u = k) l).
Proof. unfold invocations. simpl. by rewrite filter_app, length_app. Qed.

Lemma invocations_other k url s h p ts :
  url ≠ k → invocations k (State h p ts (calls s ++ [url])) = invocations k s.
Proof.
  intros Hne. rewrite invocations_app, filter_cons_False by done. simpl. lia.
Qed.

Lemma invocations_same k s h p ts :
  invocations k (State h p ts (calls s ++ [k])) = invocations k s + 1.
Proof. by rewrite invocations_app, filter_cons_True. Qed.

Lemma fetch_invocations_ne now url o s k :
  url ≠ k → invocations k (fetch now url o s).2 = invocations k s.
Proof.
  intros Hne.
  destruct (in_flight o (entry url (history s))) as [p|] eqn:E1.
  { by rewrite (fetch_reuse _ _ _ _ _ E1). }
  destruct (cache_hit now (entry url (history s)) (maxAge o)) as [d|] eqn:E2.
  - by rewrite (fetch_hit _ _ _ _ _ E1 E2).
  - rewrite (fetch_launch _ _ _ _ E1 E2). by apply invocations_other.
Qed.

Lemma wf_fetch_all k cs : ∀ s, wf s → wf (fetch_all k cs s).2.
Proof.
  induction cs as [|c cs IH]; intros s W; [done|].
  rewrite fetch_all_cons. cbn [snd]. apply IH. by apply wf_fetch.
Qed.

(** One event of a run in which [p] is in flight for [k]: a call for [k]
    that does not force is given [p] and changes nothing; every other event
    but the handler of [p] keeps [p] in flight, and only the timer of [p]
    adds a transport call for [k]. *)
Lemma flight_step k p r a e s s' :
  wf s → flight k p r a s → step e s = Some s' →
  unforced k [e] = true → unsettled p [e] = true →
  flight k p r (a + reattempts p [e]) s' ∧
  invocations k s' = invocations k s + reattempts p [e].
Proof.
  intros W (Hslot & Honly & n & ph & Ep & Hb) H Hu Hs.
  destruct e as [now url o|now q rp|q|q]; simpl in H, Hu, Hs |- *.
  - injection H as <-. rewrite !Nat.add_0_r.
    destruct (decide (url = k)) as [->|Hne].
    + rewrite bool_decide_eq_true_2 in Hu by done. simpl in Hu.
      rewrite andb_true_r in Hu. apply negb_true_iff in Hu.
      destruct (entry_promise_lookup _ _ _ Hslot) as (it & Hk & Hp).
      rewrite (fetch_in_flight _ _ _ _ _ _ Hk Hp Hu). simpl.
      split; [|done]. split; [done|]. split; [done|]. eauto.
    + split; [|by apply fetch_invocations_ne].
      split; [by rewrite fetch_entry_ne|]. split.
      * intros q t Eq Hq. apply fetch_tasks_inv in Eq as [Eq|Hurl].
        -- by eapply Honly.
        -- congruence.
      * exists n, ph. split; [|done]. by apply fetch_tasks.
  - apply respond_Some in H as (url & m & Eq & ->). rewrite !Nat.add_0_r.
    split; [|done]. destruct (decide (q = p)) as [->|Hne].
    + pose proof (eq_trans (eq_sym Ep) Eq) as E. injection E as <- <- ->.
      split; [|split].
      * simpl. rewrite promise_entry_alter; [done|].
        intros it Hit. by rewrite run_promise, (entry_lookup _ _ _ Hit).
      * intros q t. simpl. rewrite lookup_insert. case_decide; [done|].
        apply Honly.
      * simpl. rewrite lookup_insert_eq. eexists _, _. split; [done|].
        destruct (run now rp (entry k (history s))) as [res it']. simpl.
        unfold pRetry. destruct res as [v|e]; simpl; [lia|].
        destruct (is_abort e); simpl; [lia|]. destruct n; simpl; lia.
    + assert (url ≠ k) as Hurl.
      { intros ->. by apply Hne, (Honly _ _ Eq). }
      split; [|split].
      * simpl. by rewrite entry_alter_ne.
      * intros q' t. simpl. rewrite lookup_insert. case_decide.
        -- by intros [= <-].
        -- apply Honly.
      * simpl. rewrite lookup_insert_ne by done. eauto.
  - apply wake_Some in H as (url & m & Eq & ->).
    destruct (decide (q = p)) as [->|Hne].
    + pose proof (eq_trans (eq_sym Ep) Eq) as E. injection E as <- <- ->.
      split; [|by rewrite invocations_same]. split; [done|]. split.
      * intros q t. simpl. rewrite lookup_insert. case_decide; [done|].
        apply Honly.
      * simpl. rewrite lookup_insert_eq. eexists _, _. split; [done|].
        simpl. lia.
    + assert (url ≠ k) as Hurl.
      { intros ->. by apply Hne, (Honly _ _ Eq). }
      rewrite !Nat.add_0_r. split; [|by apply invocations_other].
      split; [done|]. split.
      * intros q' t. simpl. rewrite lookup_insert. case_decide.
        -- by intros [= <-].
        -- apply Honly.
      * simpl. rewrite lookup_insert_ne by done. eauto.
  - apply settle_Some in H as (url & m & ro & Eq & ->).
    rewrite andb_true_r in Hs. apply negb_true_iff, bool_decide_eq_false in Hs.
    assert (url ≠ k) as Hurl.
    { intros ->. by apply Hs, (Honly _ _ Eq). }
    rewrite !Nat.add_0_r. split; [|done]. split; [|split].
    + simpl. by rewrite entry_alter_ne.
    + intros q' t. simpl. rewrite lookup_delete. case_decide; [done|].
      apply Honly.
    + simpl. rewrite lookup_delete_ne by done. eauto.
Qed.

Lemma unforced_cons k e es :
  unforced k (e :: es) = unforced k [e] && unforced k es.
Proof. unfold unforced. simpl. by rewrite andb_true_r. Qed.

Lemma unsettled_cons p e es :
  unsettled p (e :: es) = unsettled p [e] && unsettled p es.
Proof. unfold unsettled. simpl. by rewrite andb_true_r. Qed.

Lemma flight_exec k p r es : ∀ a s s',
  wf s → flight k p r a s → exec es s = Some s' →
  unforced k es = true → unsettled p es = true →
  flight k p r (a + reattempts p es) s' ∧
  invocations k s' = invocations k s + reattempts p es ∧ wf s'.
Proof.
  induction es as [|e es IH]; intros a s s' W F H Hu Hs.
  - injection H as <-. simpl. by rewrite !Nat.add_0_r.
  - simpl in H. destruct (step e s) as [s1|] eqn:E; [|done].
    rewrite unforced_cons in Hu. rewrite unsettled_cons in Hs.
    apply andb_true_iff in Hu as [Hu1' Hu].
    apply andb_true_iff in Hs as [Hs1' Hs].
    destruct (flight_step _ _ _ _ _ _ _ W F E Hu1' Hs1') as [F1 I1].
    destruct (IH _ _ _ (wf_step _ _ _ W E) F1 H Hu Hs) as (F' & I' & W').
    assert (reattempts p (e :: es) = reattempts p [e] + reattempts p es) as Hr.
    { destruct e as [| |q|]; simpl; try done. lia. }
    rewrite Hr. split; [by rewrite Nat.add_assoc|]. split; [lia|done].
Qed.

(** C3, as stated, fails: two default calls for a fresh ["k"] are coalesced
    onto promise 0, and both see it fulfilled with ["v"], but the transport
    is invoked twice before it settles, because the first attempt fails and
    the default [retries: 1] allows a reattempt. *)
Example coalesced_calls_two_invocations :
  fetch_all "k" [(0%Z, defaults); (1%Z, defaults)] init
  = ([0; 0], State {["k" := Item None None (Some 0)]} [Pending]
                   {[0 := Task "k" 1 Attempting]} ["k"])
  ∧
  exec [Respond 2 0 (Rejects "offline"); Wake 0;
        Respond 3 0 (ok (JStr "v")); Settle 0]
       (State {["k" := Item None None (Some 0)]} [Pending]
              {[0 := Task "k" 1 Attempting]} ["k"])
  = Some (State {["k" := Item (Some (JStr "v")) (Some 3%Z) None]}
                [Fulfilled (JStr "v")] ∅ ["k"; "k"]).
Proof. split; reflexivity. Qed.

(** C3, amended: when [k] has no entry, N >= 1 calls for [k] with [force]
    false launch one retried operation.  All N calls return the same new
    promise and make one transport call between them.  In every run that
    follows, of whatever calls and callbacks for whatever urls, as long as no
    call for [k] sets [force] and the operation's handler has not run: each
    further call for [k] returns that same promise and changes nothing; the
    transport calls made for [k] are that first one plus one for each
    reattempt of the operation, of which there are at most [retries] (so
    exactly one in all when no reattempt takes place); the promise is still
    pending; and once the operation is done, its handler settles the promise
    all N calls returned with the operation's value or error, making no
    transport call. *)
Theorem coalescing_until_settlement k c cs s es s' :
  reachable s → history s !! k = None →
  Forall (λ c, force c.2 = false) (c :: cs) →
  exec es (fetch_all k (c :: cs) s).2 = Some s' →
  unforced k es = true → unsettled (length (promises s)) es = true →
  (fetch_all k (c :: cs) s).1
  = replicate (S (length cs)) (length (promises s)) ∧
  invocations k (fetch_all k (c :: cs) s).2 = invocations k s + 1 ∧
  (∀ es1 now o es2 sm,
     es = es1 ++ Call now k o :: es2 →
     exec es1 (fetch_all k (c :: cs) s).2 = Some sm →
     fetch now k o sm = (length (promises s), sm)) ∧
  invocations k s'
  = invocations k s + 1 + reattempts (length (promises s)) es ∧
  (reattempts (length (promises s)) es ≤ retries c.2)%nat ∧
  promises s' !! length (promises s) = Some Pending ∧
  ∀ n r, tasks s' !! length (promises s) = Some (Task k n (Done r)) →
    ∃ s'', settle (length (promises s)) s' = Some s'' ∧
           Forall (λ q, promises s'' !! q = Some (settled r))
                  (fetch_all k (c :: cs) s).1 ∧
           invocations k s'' = invocations k s'.
Proof.
  intros Hr Hk Hf Hes Hu Hs. pose proof (reachable_wf _ Hr) as W.
  pose proof (wf_fetch_all k (c :: cs) s W) as W1.
  pose proof (proj2 (coalescing k (c :: cs) s Hf) Hk c cs eq_refl) as Hall.
  set (p := length (promises s)) in *.
  rewrite Hall in *. cbn [fst snd] in *.
  set (s1 := State _ _ _ _) in *.
  assert (flight k p (retries c.2) 1 s1) as F1.
  { subst s1. split; [|split].
    - simpl. by rewrite entry_insert_eq.
    - intros q t. simpl. rewrite lookup_insert. case_decide; [done|].
      intros Eq Hq. destruct (wf_task _ W _ _ Eq) as [_ [it Hit]].
      rewrite Hq in Hit. congruence.
    - simpl. rewrite lookup_insert_eq. eexists _, _. split; [done|].
      simpl. lia. }
  assert (invocations k s1 = invocations k s + 1) as I1.
  { subst s1. apply invocations_same. }
  destruct (flight_exec _ _ _ _ _ _ _ W1 F1 Hes Hu Hs)
    as ((Hslot & Honly & n & ph & Ep & Hb) & I' & W').
  destruct (wf_task _ W' _ _ Ep) as [HP _].
  split; [done|]. split; [done|]. split; [|split; [lia|split; [lia|split; [done|]]]].
  - intros es1 now o es2 sm -> Hes1.
    unfold unforced in Hu. unfold unsettled in Hs.
    rewrite forallb_app in Hu, Hs.
    apply andb_true_iff in Hu as [Hu1 Hu2].
    apply andb_true_iff in Hs as [Hs1 _].
    destruct (flight_exec _ _ _ _ _ _ _ W1 F1 Hes1 Hu1 Hs1)
      as ((Hslot1 & _) & _ & _).
    destruct (entry_promise_lookup _ _ _ Hslot1) as (it & Hit & Hp).
    apply (fetch_in_flight _ _ _ _ _ _ Hit Hp).
    simpl in Hu2. apply andb_true_iff in Hu2 as [Hu2 _].
    rewrite bool_decide_eq_true_2 in Hu2 by done.
    by apply negb_true_iff in Hu2.
  - intros n' r Ed. rewrite (settle_done _ _ _ _ _ Ed).
    eexists. split; [done|]. split; [|done].
    apply Forall_forall. intros q Hq. apply elem_of_replicate in Hq as [-> _].
    simpl. apply list_lookup_insert_eq. by apply lookup_lt_Some in HP.
Qed.

(** Two default calls for a fresh ["k"]; the first attempt fails, a third
    call arrives, the timer fires and the second attempt is answered with
    ["v"]: two transport calls for ["k"], one of them the reattempt, and the
    handler then fulfils promise 0, which all calls returned, with ["v"]. *)
Lemma coalescing_until_settlement_witness :
  (fetch_all "k" [(0%Z, defaults); (1%Z, defaults)] init).1 = [0; 0] ∧
  invocations "k"
    (State {["k" := Item (Some (JStr "v")) (Some 5%Z) (Some 0)]} [Pending]
           {[0 := Task "k" 0 (Done (inl (JStr "v")))]} ["k"; "k"]) = 2 ∧
  ∃ s'',
    settle 0 (State {["k" := Item (Some (JStr "v")) (Some 5%Z) (Some 0)]}
                    [Pending] {[0 := Task "k" 0 (Done (inl (JStr "v")))]}
                    ["k"; "k"]) = Some s'' ∧
    Forall (λ q, promises s'' !! q = Some (Fulfilled (JStr "v"))) [0; 0].
Proof.
  assert (reachable init) as Hinit by (by exists []).
  assert (Forall (λ c : Z * options, force c.2 = false)
            [(0%Z, defaults); (1%Z, defaults)]) as Hf by (repeat constructor).
  destruct (coalescing_until_settlement "k" (0%Z, defaults) [(1%Z, defaults)]
              init
              [Respond 2 0 (Rejects "offline"); Call 3 "k" defaults; Wake 0;
               Respond 5 0 (ok (JStr "v"))]
              (State {["k" := Item (Some (JStr "v")) (Some 5%Z) (Some 0)]}
                     [Pending] {[0 := Task "k" 0 (Done (inl (JStr "v")))]}
                     ["k"; "k"])
              Hinit eq_refl Hf eq_refl eq_refl eq_refl)
    as (H1 & _ & _ & H4 & _ & _ & H7).
  split; [exact H1|]. split; [exact H4|].
  destruct (H7 0 (inl (JStr "v")) eq_refl) as (s'' & Hs & Hall & _).
  exists s''. split; [exact Hs|exact Hall].
Defined.
